(** * TripSync expense splitter: balances and settlement

    A shallow embedding of the balance and settlement engine of the
    [ExpenseSplitter] component (its source follows the Gemini service
    functions in [services/geminiService.ts]): the ledger mutations,
    [convertToBase], the [balances] memo and the two settlement memos, with
    the properties of the engine stated and proved over it.

    Numbers.  JavaScript numbers are modelled as exact rationals ([Q]); the
    one place where the source manufactures a NaN ([convertToBase] on a
    missing rate) is kept as an explicit [NaN] constructor.  IEEE rounding
    and overflow are idealised away, which is the reading the tolerance
    0.01 of the source is meant to absorb.  The module [Float64] re-runs
    the simplified settlement loop on binary64 values for the one input
    where that idealisation could matter.

    The rest of the file.  After the engine come the other parts of the
    component (the conversion rates effect, the form of the modal, the
    settle-up panel and its settled marks), the three service functions of
    [services/geminiService.ts] and the checklist handlers of
    [components/SharedLists.tsx], one of which calls the service.  Library
    functions the code calls ([parseFloat], [toFixed], [JSON.parse],
    [trim], [toLowerCase]) are parameters of the definitions that use
    them. *)

From Stdlib Require Import QArith Qminmax Qabs Lqa Floats.
From stdpp Require Import gmap strings list fin_maps sorting.

Local Open Scope Q_scope.

(** ** Data model ([types.ts])

    Fields carry a prefix where two interfaces share a name ([id],
    [amount], [description]); ids are integers. *)

Record Participant := mkParticipant {
  p_id : Z;
  p_name : string
}.

Record Expense := mkExpense {
  e_id : Z;
  e_description : string;
  e_amount : Q;
  e_currency : string;
  paidById : Z;
  sharedByIds : list Z
}.

Record Balance := mkBalance {
  b_participant : Participant;
  b_amount : Q
}.

(** The objects pushed on the [transactions] arrays. *)
Record Transaction := mkTransaction {
  t_from : string;
  t_to : string;
  t_amount : Q
}.

(** A JavaScript number as far as [convertToBase] and [parseFloat]
    distinguish it. *)
Inductive number :=
  | Num (q : Q)
  | NaN.

(** Outcome of evaluating a JavaScript expression: a value, or a thrown
    [TypeError] (a property read on [null]). *)
Inductive completion (A : Type) :=
  | Normal (a : A)
  | TypeError.
Arguments Normal {A} a.
Arguments TypeError {A}.

#[global] Instance completion_bind : MBind completion := fun A B k c =>
  match c with
  | Normal a => k a
  | TypeError => TypeError
  end.

(** [conversionRates] is a [Record<string, number> | null]: [None] is the
    [null] of the state variable, and a table holds the properties whose
    value has [typeof] equal to ['number']. *)
Abbreviation RateTable := (gmap string Q).

(** The constant [0.01] of the source. *)
Definition epsilon : Q := 1 # 100.

Definition Qltb (x y : Q) : bool := negb (Qle_bool y x).

(** [!x] for a nullable object. *)
Definition isNull {A} (x : option A) : bool :=
  match x with
  | None => true
  | Some _ => false
  end.

(** Truthiness of a [string | null]. *)
Definition truthy (s : option string) : bool :=
  match s with
  | Some msg => negb (String.eqb msg "")
  | None => false
  end.

(** ** Ledger mutations *)

(** The two [useState] arrays of the component. *)
Record Ledger := mkLedger {
  participants : list Participant;
  expenses : list Expense
}.

(** [addParticipant]: the handler ignores a name that trims to nothing and
    otherwise appends the trimmed name under the id [Date.now()]. *)
Definition addParticipant (now : Z) (trimmed : string) (l : Ledger) : Ledger :=
  if String.eqb trimmed "" then l
  else mkLedger (participants l ++ [mkParticipant now trimmed]) (expenses l).

(** [{...ex, sharedByIds: ex.sharedByIds.filter(pId => pId !== id)}] *)
Definition withoutSharer (id : Z) (ex : Expense) : Expense :=
  mkExpense (e_id ex) (e_description ex) (e_amount ex) (e_currency ex)
    (paidById ex) (filter (fun pId => pId ≠ id) (sharedByIds ex)).

Definition removeParticipant (id : Z) (l : Ledger) : Ledger :=
  let updatedExpenses :=
    filter (fun ex => paidById ex ≠ id ∧ (0 < length (sharedByIds ex))%nat)
      (map (withoutSharer id) (expenses l)) in
  mkLedger (filter (fun p => p_id p ≠ id) (participants l)) updatedExpenses.

(** The argument of [addExpense] is an [Omit<Expense, 'id'>]. *)
Record ExpenseInput := mkExpenseInput {
  i_description : string;
  i_amount : Q;
  i_currency : string;
  i_paidById : Z;
  i_sharedByIds : list Z
}.

(** [{ ...expense, id: Date.now() }] *)
Definition withId (now : Z) (expense : ExpenseInput) : Expense :=
  mkExpense now (i_description expense) (i_amount expense) (i_currency expense)
    (i_paidById expense) (i_sharedByIds expense).

Definition addExpense (now : Z) (expense : ExpenseInput) (l : Ledger) : Ledger :=
  mkLedger (participants l) (expenses l ++ [withId now expense]).

Definition removeExpense (id : Z) (l : Ledger) : Ledger :=
  mkLedger (participants l) (filter (fun ex => e_id ex ≠ id) (expenses l)).

(** State of the [AddExpenseModal] form when it is submitted.  [f_amount]
    is [parseFloat(amount)]; [f_paidById] is [undefined] when the modal was
    opened without participants. *)
Record FormState := mkFormState {
  f_description : string;
  f_amount : number;
  f_currency : string;
  f_paidById : option Z;
  f_sharedByIds : list Z
}.

(** [AddExpenseModal.handleSubmit]: [Some] input is the call of
    [onAddExpense]; [None] is the silent fall-through of the [if]. *)
Definition handleSubmit (f : FormState) : option ExpenseInput :=
  match f_amount f, f_paidById f with
  | Num numericAmount, Some pid =>
      if negb (String.eqb (f_description f) "")
         && Qltb 0 numericAmount
         && negb (Z.eqb pid 0)
         && Nat.ltb 0 (length (f_sharedByIds f))
      then Some (mkExpenseInput (f_description f) numericAmount (f_currency f)
                   pid (f_sharedByIds f))
      else None
  | _, _ => None
  end.

(** [addExpense] behind its only caller, the submit handler of the modal. *)
Definition submitExpense (now : Z) (f : FormState) (l : Ledger) : Ledger :=
  match handleSubmit f with
  | Some expense => addExpense now expense l
  | None => l
  end.

(** ** Currency conversion and balances *)

Section Balances.
Variable baseCurrency : string.
Variable conversionRates : option RateTable.

(** The closure [convertToBase] of the [balances] memo.  It reads the
    state variable [conversionRates]; on [null] the property read would
    throw. *)
Definition convertToBase (amount : Q) (fromCurrency : string) : completion number :=
  if String.eqb fromCurrency baseCurrency then Normal (Num amount)
  else match conversionRates with
       | None => TypeError
       | Some table =>
           match table !! fromCurrency with
           | None => Normal NaN
           | Some rate => Normal (Num (amount * rate))
           end
       end.

(** The [forEach] over [sharedByIds]. *)
Definition debitSharers (share : Q) (ids : list Z) (balanceMap : gmap Z Q) : gmap Z Q :=
  foldl (fun m participantId =>
           let participantBalance := default 0 (m !! participantId) in
           <[participantId := participantBalance - share]> m)
        balanceMap ids.

(** One turn of the [for (const expense of expenses)] loop once the
    conversion has produced a number.  For an empty [sharedByIds]
    JavaScript computes an infinity (or NaN) as [share], which the loop
    over the empty list never reads. *)
Definition applyExpense (convertedAmount : Q) (expense : Expense) (balanceMap : gmap Z Q)
  : gmap Z Q :=
  let payerBalance := default 0 (balanceMap !! paidById expense) in
  let m1 := <[paidById expense := payerBalance + convertedAmount]> balanceMap in
  let share := convertedAmount / inject_Z (Z.of_nat (length (sharedByIds expense))) in
  debitSharers share (sharedByIds expense) m1.

Fixpoint forExpenses (es : list Expense) (balanceMap : gmap Z Q) : completion (gmap Z Q) :=
  match es with
  | [] => Normal balanceMap
  | expense :: rest =>
      convertedAmount ← convertToBase (e_amount expense) (e_currency expense);
      match convertedAmount with
      | NaN => forExpenses rest balanceMap
      | Num c => forExpenses rest (applyExpense c expense balanceMap)
      end
  end.
End Balances.

(** [new Map(participants.map(p => [p.id, 0]))]: a later entry overwrites
    an earlier one with the same key. *)
Definition initialBalanceMap (ps : list Participant) : gmap Z Q :=
  foldl (fun m p => <[p_id p := 0]> m) ∅ ps.

(** The comparator passed to [sort]. *)
Definition compareFn (a b : Balance) : Q := b_amount b - b_amount a.

(** [Array.prototype.sort] is stable, so its result is determined by the
    comparator: inserting from the right, an element stays in front of
    every element it does not have to follow. *)
Fixpoint insertBalance (a : Balance) (l : list Balance) : list Balance :=
  match l with
  | [] => [a]
  | b :: l' =>
      if Qle_bool (compareFn a b) 0 then a :: b :: l'
      else b :: insertBalance a l'
  end.

Definition sortBalances (l : list Balance) : list Balance :=
  foldr insertBalance [] l.

Definition balances (ps : list Participant) (es : list Expense)
    (baseCurrency : string) (conversionRates : option RateTable)
    (ratesError : option string) : completion (list Balance) :=
  if (length ps =? 0)%nat || isNull conversionRates || truthy ratesError
  then Normal []
  else
    balanceMap ← forExpenses baseCurrency conversionRates es (initialBalanceMap ps);
    Normal (sortBalances
              (map (fun p => mkBalance p (default 0 (balanceMap !! p_id p))) ps)).

(** ** Settlement *)

Definition isCreditor (b : Balance) : bool := Qltb epsilon (b_amount b).
Definition isDebtor (b : Balance) : bool := Qltb (b_amount b) (- epsilon).

(** [{...b, amount: a}] *)
Definition withAmount (b : Balance) (a : Q) : Balance :=
  mkBalance (b_participant b) a.

(** [balances.filter(b => b.amount > 0.01).map(b => ({...b}))] *)
Definition creditorsOf (bs : list Balance) : list Balance :=
  map (fun b => withAmount b (b_amount b)) (filter (fun b => isCreditor b = true) bs).

(** [balances.filter(b => b.amount < -0.01).map(b => ({...b, amount: Math.abs(b.amount)}))] *)
Definition debtorsOf (bs : list Balance) : list Balance :=
  map (fun b => withAmount b (Qabs (b_amount b))) (filter (fun b => isDebtor b = true) bs).

(** The mutable state of the simplified settlement: the two arrays of
    copied balances (their [amount]s are decremented in place), the
    [transactions] pushed so far and the two cursors. *)
Record LoopState := mkLoopState {
  debtors : list Balance;
  creditors : list Balance;
  transactions : list Transaction;
  debtorIndex : nat;
  creditorIndex : nat
}.

(** One evaluation of the [while] condition and, when it holds, of the
    loop body.  [None] is the exit of the loop: a lookup succeeds exactly
    when the cursor is below the length of its array. *)
Definition loopBody (s : LoopState) : option LoopState :=
  match debtors s !! debtorIndex s, creditors s !! creditorIndex s with
  | Some debtor, Some creditor =>
      let amountToSettle := Qmin (b_amount debtor) (b_amount creditor) in
      let settle := Qltb epsilon amountToSettle in
      let transactions' :=
        if settle
        then transactions s ++
               [mkTransaction (p_name (b_participant debtor))
                  (p_name (b_participant creditor)) amountToSettle]
        else transactions s in
      let debtor' :=
        if settle then withAmount debtor (b_amount debtor - amountToSettle) else debtor in
      let creditor' :=
        if settle then withAmount creditor (b_amount creditor - amountToSettle) else creditor in
      Some
        (mkLoopState
           (<[debtorIndex s := debtor']> (debtors s))
           (<[creditorIndex s := creditor']> (creditors s))
           transactions'
           (if Qltb (b_amount debtor') epsilon then S (debtorIndex s) else debtorIndex s)
           (if Qltb (b_amount creditor') epsilon then S (creditorIndex s)
            else creditorIndex s))
  | _, _ => None
  end.

(** The [while] loop, run for at most [fuel] turns of its body: [Some] is
    the [transactions] array at the exit, [None] means the loop is still
    running. *)
Fixpoint whileLoop (fuel : nat) (s : LoopState) : option (list Transaction) :=
  match loopBody s with
  | None => Some (transactions s)
  | Some s' =>
      match fuel with
      | O => None
      | S fuel' => whileLoop fuel' s'
      end
  end.

Definition initialState (bs : list Balance) : LoopState :=
  mkLoopState (debtorsOf bs) (creditorsOf bs) [] 0 0.

Definition simplifiedSettleTransactions (fuel : nat) (bs : list Balance)
  : option (list Transaction) :=
  whileLoop fuel (initialState bs).

(** [creditors.reduce((sum, c) => sum + c.amount, 0)] *)
Definition totalCreditOf (cs : list Balance) : Q :=
  foldl (fun sum c => sum + b_amount c) 0 cs.

(** The inner [for] of the detailed settlement, for one debtor. *)
Definition paymentsOf (totalCredit : Q) (cs : list Balance) (debtor : Balance)
  : list Transaction :=
  flat_map (fun creditor =>
              let proportion := b_amount creditor / totalCredit in
              let paymentAmount := b_amount debtor * proportion in
              if Qltb epsilon paymentAmount
              then [mkTransaction (p_name (b_participant debtor))
                      (p_name (b_participant creditor)) paymentAmount]
              else [])
           cs.

Definition detailedSettleTransactions (bs : list Balance) : list Transaction :=
  let cs := filter (fun b => isCreditor b = true) bs in
  let ds := debtorsOf bs in
  if (length cs =? 0)%nat || (length ds =? 0)%nat then []
  else
    let totalCredit := totalCreditOf cs in
    if Qltb totalCredit epsilon then []
    else flat_map (paymentsOf totalCredit cs) ds.

(** ** Measures the statements are written with *)

Definition sumBalances (bs : list Balance) : Q :=
  foldr (fun b acc => b_amount b + acc) 0 bs.

Definition sumOf (ts : list Transaction) : Q :=
  foldr (fun t acc => t_amount t + acc) 0 ts.

(** Total of the transactions whose [key] (sender or receiver) is [name]. *)
Definition flowOf (key : Transaction → string) (name : string) (ts : list Transaction) : Q :=
  sumOf (filter (fun t => key t = name) ts).
Definition receivedBy : string → list Transaction → Q := flowOf t_to.
Definition paidBy : string → list Transaction → Q := flowOf t_from.

Definition nameOf (b : Balance) : string := p_name (b_participant b).

(** The number a [length] or a count is turned into by a division. *)
Definition Qnat (n : nat) : Q := inject_Z (Z.of_nat n).

(** Descending order of the amounts. *)
Definition descending (a b : Balance) : Prop := b_amount b <= b_amount a.

(** What makes the [if] of [handleSubmit] fall through. *)
Definition rejected (f : FormState) : Prop :=
  f_description f = ""
  ∨ match f_amount f with Num a => a <= 0 | NaN => True end
  ∨ f_paidById f = None ∨ f_paidById f = Some 0%Z
  ∨ f_sharedByIds f = [].


(** An expense well formed against the participant ids: non-empty sharer
    list, payer and sharers all live. *)
Definition wellFormed (ids : list Z) (e : Expense) : Prop :=
  sharedByIds e ≠ [] ∧ paidById e ∈ ids ∧ ∀ s, s ∈ sharedByIds e → s ∈ ids.

(** Occurrences of [k] in a sharer list, as a number. *)
Definition occurrences (k : Z) (ids : list Z) : Q :=
  Qnat (length (filter (fun s => s = k) ids)).

(** The share of an expense converted to [c]. *)
Definition shareOf (c : Q) (e : Expense) : Q :=
  c / Qnat (length (sharedByIds e)).


(** ** Notions the proofs are organised around *)

(** What [convertToBase] returns when the table is there. *)
Definition converted (base : string) (table : RateTable) (e : Expense) : number :=
  if String.eqb (e_currency e) base then Num (e_amount e)
  else match table !! e_currency e with
       | Some rate => Num (e_amount e * rate)
       | None => NaN
       end.

(** The loop over the expenses as a total function, for a table that is
    there ([forExpenses_table] relates it to [forExpenses]). *)
Fixpoint foldExpenses (base : string) (table : RateTable) (es : list Expense)
    (m : gmap Z Q) : gmap Z Q :=
  match es with
  | [] => m
  | e :: rest =>
      match converted base table e with
      | NaN => foldExpenses base table rest m
      | Num c => foldExpenses base table rest (applyExpense c e m)
      end
  end.

(** The list [balances] sorts, for a table that is there. *)
Definition unsorted (base : string) (table : RateTable) (ps : list Participant)
    (es : list Expense) : list Balance :=
  map (fun p => mkBalance p
                  (default 0 (foldExpenses base table es (initialBalanceMap ps) !! p_id p)))
      ps.

(** Net effect of an expense converted to [c] on the balance kept under
    key [k]: the credit if [k] is the payer, minus one share per listing
    among the sharers. *)
Definition contribution (c : Q) (e : Expense) (k : Z) : Q :=
  (if decide (paidById e = k) then c else 0) - shareOf c e * occurrences k (sharedByIds e).

(** Net effect of a whole expense list on key [k]; expenses that do not
    convert count for nothing. *)
Fixpoint net (base : string) (table : RateTable) (es : list Expense) (k : Z) : Q :=
  match es with
  | [] => 0
  | e :: rest =>
      match converted base table e with
      | Num c => contribution c e k
      | NaN => 0
      end + net base table rest k
  end.


(** Credit recorded under ids that are not participants. *)
Fixpoint danglingCredit (base : string) (table : RateTable) (ids : list Z)
    (es : list Expense) : Q :=
  match es with
  | [] => 0
  | e :: rest =>
      match converted base table e with
      | Num c => if decide (paidById e ∈ ids) then 0 else c
      | NaN => 0
      end + danglingCredit base table ids rest
  end.








(** Turns the cursors of the simplified loop can still advance. *)
Definition slack (s : LoopState) : nat :=
  (length (debtors s) - debtorIndex s) + (length (creditors s) - creditorIndex s).

(** ** Proof automation *)

(** Case split on whether a cursor of the simplified loop advances. *)
Ltac case_cursor :=
  match goal with
  | |- context [if ?b then S ?i else ?i] => destruct b
  end.


(** ** Example ledgers *)

Definition alice := mkParticipant 1 "Alice".
Definition bob := mkParticipant 2 "Bob".
Definition carol := mkParticipant 3 "Carol".
Definition dave := mkParticipant 4 "Dave".
Definition trio : list Participant := [alice; bob; carol].

(** The table the component starts with: [{'USD': 1}]. *)
Definition usdOnly : RateTable := {["USD" := 1]}.

(** Alice pays 90, shared by all three. *)
Definition dinner := mkExpense 10 "dinner" 90 "USD" 1 [1; 2; 3]%Z.
(** Bob pays 100 in a currency the table has no rate for. *)
Definition souvenir := mkExpense 11 "souvenir" 100 "XXX" 2 [1; 3]%Z.

(** The balances of [trio] after [dinner]. *)
Definition settledTrio : list Balance :=
  [mkBalance alice 60; mkBalance bob (-30); mkBalance carol (-30)].

Definition twoFriends : Ledger := mkLedger [alice; bob] [].

(** A negative amount, as [addExpense] can be handed one. *)
Definition refund : ExpenseInput :=
  mkExpenseInput "refund" (-5) "USD" 1 [2%Z].

(** A form whose sharers include an id (99) that is no participant. *)
Definition staleForm : FormState :=
  mkFormState "taxi" (Num 30) "USD" (Some 1%Z) [2%Z; 99%Z].


(** Alice advances 0.014 for Carol and 0.01 for Bob; Bob advances 0.014
    for Dave. *)
Definition pennies : list Expense :=
  [mkExpense 30 "for Carol" (14 # 1000) "USD" 1 [3%Z];
   mkExpense 31 "for Bob" (1 # 100) "USD" 1 [2%Z];
   mkExpense 32 "for Dave" (14 # 1000) "USD" 2 [4%Z]].

(** ** The simplified loop on binary64 numbers

    The same loop with the [amount]s as IEEE 754 binary64 values, which is
    what a JavaScript number is, set up on the balances of the ledger
    [pennies]. *)
Module Float64.

Local Open Scope float_scope.
Set Warnings "-inexact-float".

(** [Math.min] on numbers that are not NaN. *)
Definition min (a b : float) : float := if PrimFloat.ltb b a then b else a.

Record LoopState := mkLoopState {
  debtors : list (string * float);
  creditors : list (string * float);
  transactions : list (string * string * float);
  debtorIndex : nat;
  creditorIndex : nat
}.

Definition loopBody (s : LoopState) : option LoopState :=
  match debtors s !! debtorIndex s, creditors s !! creditorIndex s with
  | Some (debtorName, debtorAmount), Some (creditorName, creditorAmount) =>
      let amountToSettle := min debtorAmount creditorAmount in
      let settle := PrimFloat.ltb 0.01 amountToSettle in
      let transactions' :=
        if settle then transactions s ++ [(debtorName, creditorName, amountToSettle)]
        else transactions s in
      let debtorAmount' :=
        if settle then debtorAmount - amountToSettle else debtorAmount in
      let creditorAmount' :=
        if settle then creditorAmount - amountToSettle else creditorAmount in
      Some
        (mkLoopState
           (<[debtorIndex s := (debtorName, debtorAmount')]> (debtors s))
           (<[creditorIndex s := (creditorName, creditorAmount')]> (creditors s))
           transactions'
           (if PrimFloat.ltb debtorAmount' 0.01 then S (debtorIndex s) else debtorIndex s)
           (if PrimFloat.ltb creditorAmount' 0.01 then S (creditorIndex s)
            else creditorIndex s))
  | _, _ => None
  end.

Fixpoint whileLoop (fuel : nat) (s : LoopState) : option (list (string * string * float)) :=
  match loopBody s with
  | None => Some (transactions s)
  | Some s' =>
      match fuel with
      | O => None
      | S fuel' => whileLoop fuel' s'
      end
  end.

(** The balances of [pennies], computed in the order of the loop over the
    expenses: each starts from 0, is credited what its participant paid
    and debited its share. *)
Definition aliceBalance : float := (0 + 0.014) + 0.01.
Definition bobBalance : float := (0 - 0.01 / 1) + 0.014.
Definition carolBalance : float := 0 - 0.014 / 1.
Definition daveBalance : float := 0 - 0.014 / 1.

(** Alice is the only creditor and Carol and Dave are the debtors. *)
Definition start : LoopState :=
  mkLoopState [("Carol", abs carolBalance); ("Dave", abs daveBalance)]
    [("Alice", aliceBalance)] [] 0 0.

End Float64.

(** ** Ledger consistency *)

(** Every expense of the ledger is well formed against its participants. *)
Definition consistent (l : Ledger) : Prop :=
  ∀ e, e ∈ expenses l → wellFormed (map p_id (participants l)) e.

(** An [addExpense] argument that names live participants only. *)
Definition liveInput (ids : list Z) (expense : ExpenseInput) : Prop :=
  i_sharedByIds expense ≠ [] ∧ i_paidById expense ∈ ids
  ∧ ∀ s, s ∈ i_sharedByIds expense → s ∈ ids.

(** ** The balance list and the shape of a settlement *)

(** The three texts of a line of the balance list. *)
Inductive BalanceLabel :=
  | IsSettled
  | GetsBack
  | Owes.

(** The conditional of the balance list:
    [Math.abs(amount) < 0.01 ? 'Is settled' : (amount > 0 ? 'Gets back' : 'Owes')]. *)
Definition balanceLabel (amount : Q) : BalanceLabel :=
  if Qltb (Qabs amount) epsilon then IsSettled
  else if Qltb 0 amount then GetsBack else Owes.

(** [within l l0]: slot by slot, [l] holds the participant of [l0] with at
    most its amount. *)
Definition within (l l0 : list Balance) : Prop :=
  Forall2 (fun b b0 => b_participant b = b_participant b0 ∧ b_amount b <= b_amount b0) l l0.

(** A transaction between a debtor of [D0] and a creditor of [C0], above
    epsilon and no larger than either amount. *)
Definition between (D0 C0 : list Balance) (t : Transaction) : Prop :=
  epsilon < t_amount t
  ∧ ∃ d c, d ∈ D0 ∧ c ∈ C0 ∧ t_from t = nameOf d ∧ t_to t = nameOf c
           ∧ t_amount t <= b_amount d ∧ t_amount t <= b_amount c.


(** Case split on every comparison of the goal, each turned into the
    inequality it decides; [lt] and [ge] are the two reflection lemmas. *)
Ltac reflect_comparisons lt ge :=
  repeat match goal with
         | |- context [Qltb ?x ?y] =>
             let E := fresh "Hcmp" in
             destruct (Qltb x y) eqn:E; [apply lt in E|apply ge in E]
         end.

(** ** The conversion rates effect *)

Definition SUPPORTED_CURRENCIES : list string := ["USD"; "EUR"; "JPY"; "GBP"; "CAD"].

(** The own keys of the object literal [CURRENCY_SYMBOLS]. *)
Definition CURRENCY_SYMBOLS_keys : list string := ["USD"; "EUR"; "JPY"; "GBP"; "CAD"].

(** The property names an object literal inherits from [Object.prototype]. *)
Definition Object_prototype_keys : list string :=
  ["constructor"; "hasOwnProperty"; "isPrototypeOf"; "propertyIsEnumerable";
   "toLocaleString"; "toString"; "valueOf"; "__proto__";
   "__defineGetter__"; "__defineSetter__"; "__lookupGetter__"; "__lookupSetter__"].

(** [c in CURRENCY_SYMBOLS]: the operator [in] follows the prototype chain. *)
Definition inCurrencySymbols (c : string) : bool :=
  bool_decide (c ∈ CURRENCY_SYMBOLS_keys ++ Object_prototype_keys).

(** [[...new Set(l)]]: the elements of [l] in the order of their first
    occurrence. *)
Definition spreadSet (l : list string) : list string :=
  foldl (fun seen c => if bool_decide (c ∈ seen) then seen else seen ++ [c]) [] l.

Definition targetCurrenciesOf (es : list Expense) (baseCurrency : string) : list string :=
  let currenciesInUse := spreadSet (map e_currency es) in
  filter (fun c => c ≠ baseCurrency ∧ inCurrencySymbols c = true) currenciesInUse.

(** The three state variables the effect writes. *)
Record RatesState := mkRatesState {
  conversionRates : option RateTable;
  ratesLoading : bool;
  ratesError : option string
}.

(** The initial values of the three [useState] calls. *)
Definition initialRates : RatesState := mkRatesState (Some {["USD" := 1]}) false None.

(** How an awaited promise settles. *)
Inductive Settled (A : Type) :=
  | Fulfilled (value : A)
  | RejectedWith (message : string).
Arguments Fulfilled {A} value.
Arguments RejectedWith {A} message.

(** [fetchRates] up to its [await]: the new state, and the target
    currencies [getConversionRates] is called with ([None] when the
    function has returned without calling it). *)
Definition fetchRatesBegin (es : list Expense) (baseCurrency : string) (st : RatesState)
  : RatesState * option (list string) :=
  let targetCurrencies := targetCurrenciesOf es baseCurrency in
  if (length targetCurrencies =? 0)%nat
  then (mkRatesState (Some {[baseCurrency := 1]}) (ratesLoading st) None, None)
  else (mkRatesState (conversionRates st) true None, Some targetCurrencies).

(** [fetchRates] from the point where the awaited call has settled.  The
    table [rates] holds the numeric own properties of the value the call
    was fulfilled with; [message] is [err.message], or the fixed text when
    [err] is no [Error]. *)
Definition fetchRatesResume (baseCurrency : string) (outcome : Settled RateTable)
    (st : RatesState) : RatesState :=
  match outcome with
  | Fulfilled rates =>
      mkRatesState (Some (<[baseCurrency := 1]> rates)) false (ratesError st)
  | RejectedWith message => mkRatesState None false (Some message)
  end.

(** One whole run of the effect, nothing else happening in between. *)
Definition fetchRates (es : list Expense) (baseCurrency : string)
    (outcome : Settled RateTable) (st : RatesState) : RatesState :=
  match fetchRatesBegin es baseCurrency st with
  | (st', None) => st'
  | (st', Some _) => fetchRatesResume baseCurrency outcome st'
  end.

(** An expense [balances] does not skip under [table]. *)
Definition converts (base : string) (table : RateTable) (e : Expense) : Prop :=
  converted base table e ≠ NaN.

#[global] Instance converts_dec base table e : Decision (converts base table e).
Proof.
  unfold converts. destruct (converted base table e); [left|right]; [done|tauto].
Defined.

(** ** The form of the modal *)

(** [prev.includes(x) ? prev.filter(y => y !== x) : [...prev, x]], the
    updater of both toggles of the component. *)
Definition toggle {A} `{EqDecision A} (x : A) (prev : list A) : list A :=
  if bool_decide (x ∈ prev) then filter (fun y => y ≠ x) prev else prev ++ [x].

Definition handleToggleSharedBy (id : Z) (prev : list Z) : list Z := toggle id prev.

Definition handleSettleToggle (key : string) (prev : list string) : list string :=
  toggle key prev.

Section AmountField.
Import Strings.Ascii.

(** Regular expressions, as far as the pattern of the amount field needs
    them; [Nothing] matches no string.  A string is the sequence of the
    bytes of its UTF-8 text: the pattern only tells ASCII digits and the
    full stop from everything else, which no byte of a longer character
    is. *)
Inductive regex :=
  | Nothing
  | Eps
  | OneOf (f : ascii → bool)
  | Seq (r1 r2 : regex)
  | Alt (r1 r2 : regex)
  | Star (r : regex).

Fixpoint nullable (r : regex) : bool :=
  match r with
  | Nothing => false
  | Eps => true
  | OneOf _ => false
  | Seq r1 r2 => nullable r1 && nullable r2
  | Alt r1 r2 => nullable r1 || nullable r2
  | Star _ => true
  end.

(** The derivative of [r] by the character [c]: what is left to match once
    [c] has been read. *)
Fixpoint derive (c : ascii) (r : regex) : regex :=
  match r with
  | Nothing => Nothing
  | Eps => Nothing
  | OneOf f => if f c then Eps else Nothing
  | Seq r1 r2 =>
      if nullable r1 then Alt (Seq (derive c r1) r2) (derive c r2)
      else Seq (derive c r1) r2
  | Alt r1 r2 => Alt (derive c r1) (derive c r2)
  | Star r1 => Seq (derive c r1) (Star r1)
  end.

(** [/^r$/.test(s)], by derivatives. *)
Fixpoint test (r : regex) (s : string) : bool :=
  match s with
  | EmptyString => nullable r
  | String c s' => test (derive c r) s'
  end.

(** [\d] *)
Definition digit (c : ascii) : bool :=
  (48 <=? nat_of_ascii c)%nat && (nat_of_ascii c <=? 57)%nat.

(** [\.] *)
Definition dot (c : ascii) : bool := Ascii.eqb c ".".

(** [/^\d*\.?\d*$/] *)
Definition amountPattern : regex :=
  Seq (Star (OneOf digit)) (Seq (Alt (OneOf dot) Eps) (Star (OneOf digit))).

(** [handleAmountChange]: the new value of the [amount] state. *)
Definition handleAmountChange (value : string) (amount : string) : string :=
  if String.eqb value "" || test amountPattern value then value else amount.

End AmountField.

(** Standard meaning of a regular expression. *)
Inductive Matches : regex → string → Prop :=
  | MEps : Matches Eps ""
  | MOneOf f c : f c = true → Matches (OneOf f) (String c "")
  | MSeq r1 r2 s1 s2 : Matches r1 s1 → Matches r2 s2 → Matches (Seq r1 r2) (s1 +:+ s2)
  | MAltL r1 r2 s : Matches r1 s → Matches (Alt r1 r2) s
  | MAltR r1 r2 s : Matches r2 s → Matches (Alt r1 r2) s
  | MStarEmpty r : Matches (Star r) ""
  | MStarMore r s1 s2 :
      Matches r s1 → Matches (Star r) s2 → Matches (Star r) (s1 +:+ s2).

(** A string of decimal digits. *)
Fixpoint digits (s : string) : Prop :=
  match s with
  | EmptyString => True
  | String c s' => digit c = true ∧ digits s'
  end.

(** Decimal digits with at most one full stop among them. *)
Definition decimalText (s : string) : Prop :=
  ∃ whole fraction, digits whole ∧ digits fraction
    ∧ (s = whole +:+ fraction ∨ s = whole +:+ "." +:+ fraction).

(** The five state variables of [AddExpenseModal]. *)
Record ModalState := mkModalState {
  m_description : string;
  m_amount : string;
  m_currency : string;
  m_paidById : option Z;
  m_sharedByIds : list Z
}.

(** The initial values of the [useState] calls, for the [participants] the
    modal is opened on. *)
Definition openModal (ps : list Participant) : ModalState :=
  mkModalState "" "" "USD" (option_map p_id (head ps)) (map p_id ps).

(** What the user can do in the form.  The payer [select] has one option
    per participant, with the id as value, and there is one checkbox per
    participant. *)
Inductive ModalEvent :=
  | SetDescription (value : string)
  | ChangeAmount (value : string)
  | SetCurrency (value : string)
  | SetPaidBy (p : Participant)
  | ToggleSharedBy (p : Participant).

Definition modalStep (m : ModalState) (ev : ModalEvent) : ModalState :=
  match ev with
  | SetDescription value =>
      mkModalState value (m_amount m) (m_currency m) (m_paidById m) (m_sharedByIds m)
  | ChangeAmount value =>
      mkModalState (m_description m) (handleAmountChange value (m_amount m)) (m_currency m)
        (m_paidById m) (m_sharedByIds m)
  | SetCurrency value =>
      mkModalState (m_description m) (m_amount m) value (m_paidById m) (m_sharedByIds m)
  | SetPaidBy p =>
      mkModalState (m_description m) (m_amount m) (m_currency m) (Some (p_id p))
        (m_sharedByIds m)
  | ToggleSharedBy p =>
      mkModalState (m_description m) (m_amount m) (m_currency m) (m_paidById m)
        (handleToggleSharedBy (p_id p) (m_sharedByIds m))
  end.

(** An event the form rendered for [ps] can raise. *)
Definition offered (ps : list Participant) (ev : ModalEvent) : Prop :=
  match ev with
  | SetCurrency value => value ∈ SUPPORTED_CURRENCIES
  | SetPaidBy p => p ∈ ps
  | ToggleSharedBy p => p ∈ ps
  | _ => True
  end.

(** What holds of the state of a modal opened on [ps], whatever the user
    does. *)
Record modalInvariant (ps : list Participant) (m : ModalState) : Prop := mkModalInvariant {
  inv_amount : decimalText (m_amount m);
  inv_currency : m_currency m ∈ SUPPORTED_CURRENCIES;
  inv_paidById : ∀ id, m_paidById m = Some id → id ∈ map p_id ps;
  inv_sharedByIds : ∀ id, id ∈ m_sharedByIds m → id ∈ map p_id ps;
  inv_distinct : NoDup (map p_id ps) → NoDup (m_sharedByIds m)
}.

Section Modal.
(** [parseFloat], the library function [handleSubmit] reads the amount
    with. *)
Variable parseFloat : string → number.

(** What [handleSubmit] reads off the state. *)
Definition formOf (m : ModalState) : FormState :=
  mkFormState (m_description m) (parseFloat (m_amount m)) (m_currency m)
    (m_paidById m) (m_sharedByIds m).

(** A modal session: the modal is opened on the participants of the
    ledger, the events are handled in turn and the form is submitted. *)
Definition modalSession (ps : list Participant) (evs : list ModalEvent) : FormState :=
  formOf (foldl modalStep (openModal ps) evs).


End Modal.

(** ** The settle-up panel *)

(** What the panel under "How to Settle Up" shows. *)
Inductive SettlePanel :=
  | TransactionList (ts : list Transaction)
  | EveryoneSettled
  | AddSomeExpenses.

(** The conditional of the JSX on [transactionsToDisplay.length > 0] and,
    below it, on
    [participants.length > 1 && expenses.length > 0 && !ratesError]. *)
Definition settlePanel (ps : list Participant) (es : list Expense)
    (ratesError : option string) (transactionsToDisplay : list Transaction) : SettlePanel :=
  if (0 <? length transactionsToDisplay)%nat then TransactionList transactionsToDisplay
  else if (1 <? length ps)%nat && (0 <? length es)%nat && negb (truthy ratesError)
       then EveryoneSettled
       else AddSomeExpenses.

(** ** The Gemini service *)

(** A value as [JSON.parse] builds it. *)
#[warnings="-register-all"]
Inductive json :=
  | JNull
  | JBool (b : bool)
  | JNumber (q : Q)
  | JString (s : string)
  | JArray (items : list json)
  | JObject (properties : gmap string json).

(** Truthiness of such a value. *)
Definition truthyValue (v : json) : bool :=
  match v with
  | JNull => false
  | JBool b => b
  | JNumber q => negb (Qeq_bool q 0)
  | JString s => negb (String.eqb s "")
  | JArray _ => true
  | JObject _ => true
  end.

(** [v.key] for a value that is not [null] and a key that no prototype
    defines ([rates], [itinerary], [suggestions], [destination]); [None] is
    [undefined]. *)
Definition property (key : string) (v : json) : option json :=
  match v with
  | JObject properties => properties !! key
  | _ => None
  end.

(** What a [try] block can throw, as far as the [catch] blocks of the
    service tell it apart. *)
Inductive Thrown :=
  | SyntaxError
  | Error (message : string)
  | OtherError.

(** How [await ai.models.generateContent(...)] comes out: it throws, or it
    returns a response whose [text] is a string or [undefined]. *)
Inductive ApiResult :=
  | ApiThrows (e : Thrown)
  | ApiResponds (text : option string).

Section Service.
(** [String.prototype.trim] and [JSON.parse] ([None] is its
    [SyntaxError]). *)
Variable trim : string → string.
Variable JSONparse : string → option json.

(** [JSON.parse(response.text.trim())]; on an [undefined] text the call of
    [trim] throws a [TypeError]. *)
Definition parseResponse (r : ApiResult) : Thrown + json :=
  match r with
  | ApiThrows e => inl e
  | ApiResponds None => inl OtherError
  | ApiResponds (Some text) =>
      match JSONparse (trim text) with
      | None => inl SyntaxError
      | Some parsedResponse => inr parsedResponse
      end
  end.

(** The [try] block of [getConversionRates]. *)
Definition getConversionRates_try (r : ApiResult) : Thrown + json :=
  match parseResponse r with
  | inl e => inl e
  | inr parsedResponse =>
      match (if truthyValue parsedResponse then property "rates" parsedResponse else None) with
      | Some rates =>
          if truthyValue rates then inr rates
          else inl (Error "AI returned an invalid rate structure.")
      | None => inl (Error "AI returned an invalid rate structure.")
      end
  end.

Definition getConversionRates (r : ApiResult) : Settled json :=
  match getConversionRates_try r with
  | inr rates => Fulfilled rates
  | inl SyntaxError =>
      RejectedWith "The AI returned an invalid response format for rates. Please try again."
  | inl _ => RejectedWith "Could not fetch conversion rates from the AI service."
  end.






End Service.

(** ** The settled marks *)

Section SettledKeys.
Import Strings.Ascii.
(** [Number.prototype.toFixed] with two digits. *)
Variable toFixed2 : Q → string.

(** The key of the line showing [t] at position [index]:
    [`${t.from}-${t.to}-${t.amount.toFixed(2)}-${index}`]. *)
Definition transactionKey (t : Transaction) (index : nat) : string :=
  t_from t +:+ "-" +:+ t_to t +:+ "-" +:+ toFixed2 (t_amount t) +:+ "-"
  +:+ pretty.pretty index.

(** [settledTransactions.includes(key)] for that line. *)
Definition isSettled (settledTransactions : list string) (t : Transaction) (index : nat)
  : bool :=
  bool_decide (transactionKey t index ∈ settledTransactions).

(** Whether a string has a hyphen in it. *)
Fixpoint hasDash (s : string) : bool :=
  match s with
  | EmptyString => false
  | String c r => Ascii.eqb c "-" || hasDash r
  end.

(** What follows the last hyphen of a string. *)
Fixpoint afterLastDash (s : string) : string :=
  match s with
  | EmptyString => EmptyString
  | String c r =>
      if hasDash r then afterLastDash r
      else if Ascii.eqb c "-" then r else s
  end.
End SettledKeys.

(** ** The checklists ([components/SharedLists.tsx]) *)

Inductive ListType :=
  | todo
  | packing.

(** [TodoItem] of [types.ts].  An id is [Date.now()], or
    [Date.now() + Math.random()] for a suggested item. *)
Record TodoItem := mkTodoItem {
  td_id : Q;
  td_text : string;
  completed : bool;
  listType : ListType
}.


Definition handleAddItem (now : Z) (text : string) (type : ListType)
    (items : list TodoItem) : list TodoItem :=
  items ++ [mkTodoItem (inject_Z now) text false type].

(** [{ ...item, completed: !item.completed }] *)
Definition toggled (item : TodoItem) : TodoItem :=
  mkTodoItem (td_id item) (td_text item) (negb (completed item)) (listType item).

Definition handleToggleItem (id : Q) (items : list TodoItem) : list TodoItem :=
  map (fun item => if Qeq_bool (td_id item) id then toggled item else item) items.

Definition handleDeleteItem (id : Q) (items : list TodoItem) : list TodoItem :=
  filter (fun item => Qeq_bool (td_id item) id = false) items.

Section Suggestions.
(** [String.prototype.toLowerCase], and the ids the [map] callback draws,
    by position. *)
Variable toLowerCase : string → string.
Variable drawId : nat → Q.



End Suggestions.

(** * Properties *)

(** ** Comparisons on [Q] *)

Lemma Qltb_lt x y : Qltb x y = true <-> x < y.
Proof.
  unfold Qltb. rewrite negb_true_iff, <- not_true_iff_false, Qle_bool_iff.
  split; [apply Qnot_le_lt | apply Qlt_not_le].
Qed.

Lemma Qltb_ge x y : Qltb x y = false <-> y <= x.
Proof.
  unfold Qltb. rewrite negb_false_iff. apply Qle_bool_iff.
Qed.

(** ** Currency conversion *)

(** C9. Converting an amount from the base currency to the base currency
    returns it unchanged, whatever the rate table is ([None] is the absent
    table): the identity test comes before any lookup, so no rate is read
    and no failure is possible. *)
Theorem convertToBase_identity (baseCurrency : string)
    (conversionRates : option RateTable) (x : Q) :
  convertToBase baseCurrency conversionRates x baseCurrency = Normal (Num x).
Proof.
  unfold convertToBase. by rewrite String.eqb_refl.
Qed.

(** With a table present the conversion never throws. *)
Lemma convertToBase_table base table amount from :
  convertToBase base (Some table) amount from =
  Normal (if String.eqb from base then Num amount
          else match table !! from with
               | Some rate => Num (amount * rate)
               | None => NaN
               end).
Proof.
  unfold convertToBase. destruct (String.eqb from base); [done|].
  by destruct (table !! from).
Qed.

(** ** Ledger mutations *)

Lemma withoutSharer_sharers id ex s :
  s ∈ sharedByIds (withoutSharer id ex) ↔ s ∈ sharedByIds ex ∧ s ≠ id.
Proof.
  unfold withoutSharer; simpl. rewrite list_elem_of_filter. tauto.
Qed.

Lemma nonempty_length {A} (l : list A) : (0 < length l)%nat ↔ ∃ x, x ∈ l.
Proof.
  destruct l as [|a l]; simpl; split.
  - lia.
  - intros [x Hx]. by apply not_elem_of_nil in Hx.
  - intros _. exists a. apply list_elem_of_here.
  - lia.
Qed.

(** C4. [removeParticipant id] removes the participant, strips [id] from
    the sharer list of every expense, and keeps exactly the stripped
    expenses whose payer is not [id] and whose stripped sharer list is not
    empty (the emptiness test runs after the stripping).  So no surviving
    expense mentions [id] or has an empty sharer list, and an expense whose
    only sharer was [id] is gone. *)
Theorem removeParticipant_cascade (id : Z) (l : Ledger) :
  (∀ p, p ∈ participants (removeParticipant id l) ↔ p ∈ participants l ∧ p_id p ≠ id)
  ∧ (∀ ex', ex' ∈ expenses (removeParticipant id l) ↔
       ∃ ex, ex ∈ expenses l ∧ ex' = withoutSharer id ex ∧ paidById ex ≠ id
             ∧ ∃ s, s ∈ sharedByIds ex ∧ s ≠ id)
  ∧ (∀ ex', ex' ∈ expenses (removeParticipant id l) →
       (id ∉ sharedByIds ex') ∧ sharedByIds ex' ≠ [] ∧ paidById ex' ≠ id)
  ∧ (∀ ex, ex ∈ expenses l → (∀ s, s ∈ sharedByIds ex → s = id) →
       withoutSharer id ex ∉ expenses (removeParticipant id l)).
Proof.
  assert (Hchar : ∀ ex', ex' ∈ expenses (removeParticipant id l) ↔
       ∃ ex, ex ∈ expenses l ∧ ex' = withoutSharer id ex ∧ paidById ex ≠ id
             ∧ ∃ s, s ∈ sharedByIds ex ∧ s ≠ id).
  { intros ex'. unfold removeParticipant; simpl.
    rewrite list_elem_of_filter, list_elem_of_fmap. split.
    - intros [[Hpayer Hlen] [ex [-> Hin]]]. exists ex.
      repeat split; [done | done |].
      apply nonempty_length in Hlen as [s Hs].
      apply withoutSharer_sharers in Hs. by exists s.
    - intros [ex [Hin [-> [Hpayer [s Hs]]]]]. split; [split; [done|] | by exists ex].
      apply nonempty_length. exists s. by apply withoutSharer_sharers. }
  assert (Hsafe : ∀ ex', ex' ∈ expenses (removeParticipant id l) →
       (id ∉ sharedByIds ex') ∧ sharedByIds ex' ≠ [] ∧ paidById ex' ≠ id).
  { intros ex' [ex [Hin [-> [Hpayer [s Hs]]]]]%Hchar. repeat split.
    - intros [_ Hne]%withoutSharer_sharers. by apply Hne.
    - intros Hnil. apply withoutSharer_sharers in Hs. rewrite Hnil in Hs.
      by apply not_elem_of_nil in Hs.
    - done. }
  split; [|split; [done|split; [done|]]].
  - intros p. unfold removeParticipant; simpl. rewrite list_elem_of_filter. tauto.
  - intros ex Hin Honly Hsurv. apply Hsafe in Hsurv as [_ [Hne _]].
    apply Hne. destruct (sharedByIds (withoutSharer id ex)) as [|s rest] eqn:E; [done|].
    assert (Hs : s ∈ sharedByIds (withoutSharer id ex)) by (rewrite E; apply list_elem_of_here).
    apply withoutSharer_sharers in Hs as [Hs Hsne]. by apply Honly in Hs.
Qed.

(** The surviving expenses keep the order of the ledger. *)
Lemma removeParticipant_expenses id l :
  expenses (removeParticipant id l) =
  map (withoutSharer id)
    (filter (fun ex => paidById ex ≠ id ∧ filter (fun s => s ≠ id) (sharedByIds ex) ≠ [])
       (expenses l)).
Proof.
  unfold removeParticipant; simpl. induction (expenses l) as [|ex es IH]; [done|].
  simpl. rewrite !filter_cons, IH. simpl.
  assert (Hiff : (0 < length (filter (λ pId : Z, pId ≠ id) (sharedByIds ex)))%nat
                 ↔ filter (λ s : Z, s ≠ id) (sharedByIds ex) ≠ []).
  { destruct (filter _ (sharedByIds ex)); simpl; split; try done; lia. }
  repeat case_decide; try done; tauto.
Qed.

Lemma handleSubmit_None f : handleSubmit f = None ↔ rejected f.
Proof.
  unfold handleSubmit, rejected.
  destruct (f_amount f) as [a|]; [|tauto].
  destruct (f_paidById f) as [pid|]; [|tauto].
  destruct (String.eqb_spec (f_description f) "") as [Hd|Hd]; simpl; [tauto|].
  destruct (Qltb 0 a) eqn:Ha; simpl.
  2:{ apply Qltb_ge in Ha. tauto. }
  apply Qltb_lt in Ha.
  destruct (Z.eqb_spec pid 0) as [->|Hp]; simpl; [tauto|].
  destruct (f_sharedByIds f) as [|s rest]; simpl; [tauto|].
  split; [done|].
  intros [?|[Hle|[?|[[=]|?]]]]; try done.
  exfalso. by apply (Qlt_not_le _ _ Ha).
Qed.

Lemma handleSubmit_Some f expense :
  handleSubmit f = Some expense →
  f_amount f = Num (i_amount expense)
  ∧ f_paidById f = Some (i_paidById expense)
  ∧ i_description expense = f_description f
  ∧ i_currency expense = f_currency f
  ∧ i_sharedByIds expense = f_sharedByIds f.
Proof.
  unfold handleSubmit.
  destruct (f_amount f) as [a|]; [|done].
  destruct (f_paidById f) as [pid|]; [|done].
  destruct (_ && _); [|done].
  by intros [= <-].
Qed.

(** C5, as the code has it.  [addExpense] checks nothing and never fails:
    whatever the input, it appends the expense under the id [now] (the
    value of [Date.now()]) and leaves the participants alone; the ids stay
    pairwise distinct exactly when [now] is not in use yet.  The only gate
    is [handleSubmit], which does not call [addExpense] (and reports no
    error) when the description is empty, the parsed amount is NaN or not
    positive, no payer is selected, or no sharer is ticked; it never looks
    at the participant list, so it does not check that the payer or the
    sharers are live. *)
Theorem addExpense_unchecked (now : Z) (l : Ledger) :
  (∀ expense,
      expenses (addExpense now expense l) = expenses l ++ [withId now expense]
      ∧ participants (addExpense now expense l) = participants l
      ∧ (NoDup (map e_id (expenses (addExpense now expense l)))
         ↔ NoDup (map e_id (expenses l)) ∧ now ∉ map e_id (expenses l)))
  ∧ (∀ f, rejected f → submitExpense now f l = l)
  ∧ (∀ f, ¬ rejected f →
       ∃ expense, handleSubmit f = Some expense
         ∧ f_amount f = Num (i_amount expense)
         ∧ f_paidById f = Some (i_paidById expense)
         ∧ i_sharedByIds expense = f_sharedByIds f
         ∧ submitExpense now f l = addExpense now expense l).
Proof.
  split; [|split].
  - intros expense. split; [done|]. split; [done|].
    unfold addExpense; simpl. rewrite map_app; simpl.
    rewrite NoDup_app. split.
    + intros [Hnd [Hnot _]]. split; [done|]. intros Hin.
      apply (Hnot _ Hin). apply list_elem_of_here.
    + intros [Hnd Hnot]. split; [done|]. split.
      * intros x Hx [->|Hnil%not_elem_of_nil]%elem_of_cons; done.
      * apply NoDup_singleton.
  - intros f Hrej. unfold submitExpense.
    apply handleSubmit_None in Hrej. by rewrite Hrej.
  - intros f Hok. unfold submitExpense.
    destruct (handleSubmit f) as [expense|] eqn:E.
    + exists expense. apply handleSubmit_Some in E as (? & ? & ? & ? & ?). done.
    + apply handleSubmit_None in E. done.
Qed.

(** C5, as stated, fails.  An expense with a negative amount handed to
    [addExpense] is not refused: it is appended, and the next balance
    computation counts it.  And a form that names a sharer (99) who is not
    a participant passes the submit handler and is appended too. *)
Lemma addExpense_accepts_invalid :
  (i_amount refund <= 0
   ∧ expenses (addExpense 7 refund twoFriends) = [withId 7 refund]
   ∧ balances (participants (addExpense 7 refund twoFriends))
       (expenses (addExpense 7 refund twoFriends)) "USD" (Some usdOnly) None
     = Normal [mkBalance bob 5; mkBalance alice (-5)])
  ∧ ((99%Z ∉ map p_id (participants twoFriends))
     ∧ expenses (submitExpense 7 staleForm twoFriends)
       = [mkExpense 7 "taxi" 30 "USD" 1 [2%Z; 99%Z]]).
Proof.
  split; [split; [|split] | split].
  - by vm_compute.
  - reflexivity.
  - vm_compute. reflexivity.
  - simpl. intros Hin. repeat (apply elem_of_cons in Hin as [Hin|Hin]; [done|]).
    by apply not_elem_of_nil in Hin.
  - reflexivity.
Qed.

(** ** The balance map *)



Lemma forExpenses_table base table es m :
  forExpenses base (Some table) es m = Normal (foldExpenses base table es m).
Proof.
  revert m. induction es as [|e rest IH]; intros m; [done|].
  simpl. rewrite convertToBase_table. fold (converted base table e).
  simpl. destruct (converted base table e); apply IH.
Qed.

(** The guard of [balances], read as a proposition. *)
Lemma balances_unavailable_guard ps es base rates err :
  rates = None ∨ truthy err = true ∨ ps = [] →
  balances ps es base rates err = Normal [].
Proof.
  unfold balances. intros [-> | [-> | ->]]; simpl.
  - by rewrite orb_true_r.
  - by rewrite orb_true_r.
  - done.
Qed.

Lemma balances_available ps es base table err :
  ps ≠ [] → truthy err = false →
  balances ps es base (Some table) err = Normal (sortBalances (unsorted base table ps es)).
Proof.
  intros Hps Herr. unfold balances. rewrite Herr, forExpenses_table.
  destruct ps; [done|]. simpl. done.
Qed.

(** [balances] never throws: the guard returns before a [null] table could
    be read. *)
Lemma balances_total ps es base rates err :
  ∃ bs, balances ps es base rates err = Normal bs.
Proof.
  destruct rates as [table|].
  - destruct (truthy err) eqn:Herr.
    + exists []. apply balances_unavailable_guard. auto.
    + destruct ps as [|p ps].
      * exists []. apply balances_unavailable_guard. auto.
      * eexists. by apply balances_available.
  - exists []. apply balances_unavailable_guard. auto.
Qed.

(** *** The sort *)

Lemma insertBalance_perm a l : insertBalance a l ≡ₚ a :: l.
Proof.
  induction l as [|b l IH]; simpl; [done|].
  destruct (Qle_bool (compareFn a b) 0); [done|].
  rewrite IH. apply Permutation_swap.
Qed.

Lemma sortBalances_perm l : sortBalances l ≡ₚ l.
Proof.
  induction l as [|a l IH]; simpl; [done|].
  rewrite insertBalance_perm. by rewrite IH.
Qed.

Lemma insertBalance_sorted a l :
  StronglySorted descending l → StronglySorted descending (insertBalance a l).
Proof.
  induction l as [|b l IH]; simpl; intros Hs.
  - repeat constructor.
  - apply StronglySorted_inv in Hs as [Hl Hb].
    destruct (Qle_bool (compareFn a b) 0) eqn:E.
    + apply Qle_bool_iff in E. unfold compareFn in E.
      assert (Hab : descending a b) by (unfold descending; lra).
      constructor; [by constructor|]. constructor; [done|].
      eapply Forall_impl; [exact Hb|]. unfold descending. intros x Hx. lra.
    + assert (Hba : descending b a).
      { unfold descending. destruct (Qlt_le_dec (b_amount a) (b_amount b)) as [Hlt|Hle].
        - lra.
        - exfalso. apply not_true_iff_false in E. apply E, Qle_bool_iff.
          unfold compareFn. lra. }
      constructor; [by apply IH|].
      rewrite insertBalance_perm. by constructor.
Qed.

Lemma sortBalances_sorted l : StronglySorted descending (sortBalances l).
Proof.
  induction l as [|a l IH]; simpl; [constructor|]. by apply insertBalance_sorted.
Qed.

Lemma elem_of_sortBalances b l : b ∈ sortBalances l ↔ b ∈ l.
Proof.
  by rewrite sortBalances_perm.
Qed.



(** *** What one expense does to one key *)



(** An expense that does not mention [k] leaves the entry of [k] as it is. *)
Lemma lookup_applyExpense_other c e m k :
  paidById e ≠ k → k ∉ sharedByIds e → applyExpense c e m !! k = m !! k.
Proof.
  intros Hp Hs. unfold applyExpense, debitSharers.
  generalize (c / inject_Z (Z.of_nat (length (sharedByIds e)))). intros share.
  rewrite <- (lookup_insert_ne m (paidById e) k (default 0 (m !! paidById e) + c)) by done.
  generalize (<[paidById e:=default 0 (m !! paidById e) + c]> m). clear m.
  induction (sharedByIds e) as [|a ids IH]; intros m; simpl; [done|].
  apply not_elem_of_cons in Hs as [Hka Hids].
  rewrite IH by done. by rewrite lookup_insert_ne.
Qed.


Lemma lookup_foldExpenses_other base table es m k :
  (∀ e, e ∈ es → paidById e ≠ k ∧ k ∉ sharedByIds e) →
  foldExpenses base table es m !! k = m !! k.
Proof.
  revert m. induction es as [|e rest IH]; intros m Hes; simpl; [done|].
  assert (Hrest : ∀ e', e' ∈ rest → paidById e' ≠ k ∧ k ∉ sharedByIds e').
  { intros e' He'. apply Hes. by apply list_elem_of_further. }
  destruct (converted base table e) as [c|]; rewrite IH by done; [|done].
  destruct (Hes e) as [Hp Hs]; [apply list_elem_of_here|].
  by apply lookup_applyExpense_other.
Qed.


Lemma initialBalanceMap_lookup ps k :
  initialBalanceMap ps !! k = None ∨ initialBalanceMap ps !! k = Some 0.
Proof.
  unfold initialBalanceMap.
  assert (H : ∀ m : gmap Z Q, (m !! k = None ∨ m !! k = Some 0) →
     foldl (λ m p, <[p_id p:=0]> m) m ps !! k = None
     ∨ foldl (λ m p, <[p_id p:=0]> m) m ps !! k = Some 0).
  { induction ps as [|p ps IH]; intros m Hm; simpl; [done|].
    apply IH. destruct (decide (p_id p = k)) as [->|Hne].
    - right. apply lookup_insert_eq.
    - by rewrite lookup_insert_ne. }
  apply H. left. apply lookup_empty.
Qed.

Lemma initialBalanceMap_default ps k : default 0 (initialBalanceMap ps !! k) = 0.
Proof.
  by destruct (initialBalanceMap_lookup ps k) as [-> | ->].
Qed.

Lemma balances_elem base table ps es err bs b :
  truthy err = false →
  balances ps es base (Some table) err = Normal bs →
  b ∈ bs ↔
  ∃ p, p ∈ ps ∧ b_participant b = p
       ∧ b_amount b
         = default 0 (foldExpenses base table es (initialBalanceMap ps) !! p_id p).
Proof.
  intros Herr Hbs. destruct ps as [|p0 ps0].
  - rewrite balances_unavailable_guard in Hbs by auto.
    injection Hbs as <-. split.
    + by intros ?%not_elem_of_nil.
    + by intros (p & ?%not_elem_of_nil & _).
  - rewrite balances_available in Hbs by done.
    assert (bs = sortBalances (unsorted base table (p0 :: ps0) es)) as -> by congruence.
    rewrite elem_of_sortBalances.
    unfold unsorted. rewrite list_elem_of_fmap. split.
    + intros (p & -> & Hp). by exists p.
    + intros (p & Hp & <- & Ha). exists (b_participant b). split; [|done].
      destruct b as [bp ba]; simpl in *. by rewrite Ha.
Qed.

(** *** Sums over the participants *)













(** ** Facts about the example ledgers *)


Lemma dinner_wellFormed : ∀ e, e ∈ [dinner] → wellFormed (map p_id trio) e.
Proof.
  intros e ->%list_elem_of_singleton. split; [done|].
  split; [apply (bool_decide_unpack _); vm_compute; reflexivity|].
  intros s Hs. simpl in Hs.
  repeat (apply elem_of_cons in Hs as [->|Hs];
          [apply (bool_decide_unpack _); vm_compute; reflexivity|]).
  by apply not_elem_of_nil in Hs.
Defined.

(** ** Properties of the balances *)





(** A participant id that occurs twice breaks the sum as well: the one map
    entry under that id is reported for both participants. *)
Lemma balances_repeated_id_not_zero_sum :
  ∃ bs, balances [alice; mkParticipant 1 "Alice again"; bob]
          [mkExpense 10 "lunch" 90 "USD" 1 [2%Z]] "USD" (Some usdOnly) None
        = Normal bs
        ∧ bs = [mkBalance alice 90; mkBalance (mkParticipant 1 "Alice again") 90;
                mkBalance bob (-90)]
        ∧ sumBalances bs == 90.
Proof.
  eexists. split; [vm_compute; reflexivity|]. split; [reflexivity|by vm_compute].
Qed.





Lemma balances_participants ps es base table err bs :
  truthy err = false →
  balances ps es base (Some table) err = Normal bs →
  map b_participant bs ≡ₚ ps.
Proof.
  intros Herr Hbs. destruct ps as [|p0 ps0].
  - rewrite balances_unavailable_guard in Hbs by auto. by injection Hbs as <-.
  - rewrite balances_available in Hbs by done.
    assert (bs = sortBalances (unsorted base table (p0 :: ps0) es)) as -> by congruence.
    rewrite sortBalances_perm. unfold unsorted. rewrite map_map. simpl.
    by rewrite map_id.
Qed.

(** C8. When the computation goes through (table present, no error) it
    returns one Balance per participant, a participant mentioned by no
    expense has amount 0, and the list is in descending order of amount. *)
Theorem balances_per_participant ps es base (table : RateTable) err :
  truthy err = false →
  ∃ bs, balances ps es base (Some table) err = Normal bs
        ∧ map b_participant bs ≡ₚ ps
        ∧ (∀ b, b ∈ bs →
             (∀ e, e ∈ es → paidById e ≠ p_id (b_participant b)
                            ∧ p_id (b_participant b) ∉ sharedByIds e) →
             b_amount b = 0)
        ∧ StronglySorted descending bs.
Proof.
  intros Herr. destruct (balances_total ps es base (Some table) err) as [bs Hbs].
  exists bs. split; [done|]. split; [|split].
  - by apply (balances_participants ps es base table err).
  - intros b Hb Hfree.
    apply (balances_elem base table ps es err bs b Herr Hbs) in Hb as (p & Hp & <- & ->).
    rewrite lookup_foldExpenses_other by done. apply initialBalanceMap_default.
  - destruct ps as [|p0 ps0].
    + rewrite balances_unavailable_guard in Hbs by auto. injection Hbs as <-. constructor.
    + rewrite balances_available in Hbs by done.
      assert (bs = sortBalances (unsorted base table (p0 :: ps0) es)) as -> by congruence.
      apply sortBalances_sorted.
Qed.

Lemma balances_per_participant_witness :
  ∃ bs, balances trio [dinner] "USD" (Some usdOnly) None = Normal bs
        ∧ map b_participant bs ≡ₚ trio
        ∧ (∀ b, b ∈ bs →
             (∀ e, e ∈ [dinner] → paidById e ≠ p_id (b_participant b)
                                  ∧ p_id (b_participant b) ∉ sharedByIds e) →
             b_amount b = 0)
        ∧ StronglySorted descending bs.
Proof.
  apply balances_per_participant. reflexivity.
Defined.

Lemma occurrences_absent k l : k ∉ l → occurrences k l == 0.
Proof.
  intros Hk. unfold occurrences. induction l as [|s l IH]; [reflexivity|].
  apply not_elem_of_cons in Hk as [Hne Hk]. rewrite filter_cons.
  destruct (decide (s = k)) as [->|_]; [done|]. by apply IH.
Qed.

Lemma contribution_untouched c e k :
  paidById e ≠ k → k ∉ sharedByIds e → contribution c e k == 0.
Proof.
  intros Hp Hs. unfold contribution. rewrite occurrences_absent by done.
  destruct (decide (paidById e = k)); [done|]. ring.
Qed.

Lemma net_untouched base table es k :
  (∀ e, e ∈ es → paidById e ≠ k ∧ k ∉ sharedByIds e) → net base table es k == 0.
Proof.
  induction es as [|e rest IH]; intros Hes; simpl; [reflexivity|].
  rewrite IH by (intros; apply Hes; by apply list_elem_of_further).
  destruct (Hes e) as [Hp Hs]; [apply list_elem_of_here|].
  destruct (converted base table e); [|ring].
  rewrite contribution_untouched by done. ring.
Qed.

Lemma danglingCredit_app base table ids es1 es2 :
  danglingCredit base table ids (es1 ++ es2)
  == danglingCredit base table ids es1 + danglingCredit base table ids es2.
Proof.
  induction es1 as [|e es1 IH]; simpl; [ring|]. rewrite IH. ring.
Qed.





(** The two other things the sum leans on.  With an empty sharer list
    nobody is debited, and with a repeated participant id a debit is
    reported twice. *)
Lemma balances_dangling_unshared :
  ∃ bs, balances trio [mkExpense 15 "nobody" 60 "USD" 9 []] "USD" (Some usdOnly) None
        = Normal bs
        ∧ sumBalances bs == 0.
Proof.
  eexists. split; [vm_compute; reflexivity|by vm_compute].
Qed.

Lemma balances_dangling_repeated_id :
  ∃ bs, balances [alice; mkParticipant 1 "Alice again"]
          [mkExpense 16 "twice" 60 "USD" 9 [1%Z]] "USD" (Some usdOnly) None
        = Normal bs
        ∧ sumBalances bs == - 120.
Proof.
  eexists. split; [vm_compute; reflexivity|by vm_compute].
Qed.

(** ** Settlement: two ledgers worth a closer look *)


(** A loop state that the body maps to itself never exits. *)
Lemma whileLoop_stuck s : loopBody s = Some s → ∀ fuel, whileLoop fuel s = None.
Proof.
  intros Hs fuel. induction fuel as [|fuel IH]; simpl; rewrite Hs; done.
Qed.

Lemma whileLoop_step s s' fuel :
  loopBody s = Some s' → whileLoop (S fuel) s = whileLoop fuel s'.
Proof.
  intros Hs. simpl. by rewrite Hs.
Qed.

(** C3, on the code.  The ledger [pennies] is well formed; its balances
    are Alice 0.024, Bob 0.004, Carol and Dave -0.014 each.  The first turn
    emits Carol -> Alice 0.014 and leaves Alice with exactly 0.01.  On the
    next turn the amount to settle is 0.01, which is not above 0.01, and
    neither remaining amount is below 0.01: nothing changes, and the loop
    never exits. *)
Theorem simplified_loop_never_exits :
  ∃ bs, balances [alice; bob; carol; dave] pennies "USD" (Some usdOnly) None = Normal bs
        ∧ sumBalances bs == 0
        ∧ ∀ fuel, simplifiedSettleTransactions fuel bs = None.
Proof.
  eexists. split; [vm_compute; reflexivity|]. split; [by vm_compute|].
  intros [|fuel]; [vm_compute; reflexivity|].
  unfold simplifiedSettleTransactions.
  erewrite whileLoop_step by (vm_compute; reflexivity).
  apply whileLoop_stuck. vm_compute. reflexivity.
Qed.

(** ** Settlement: bookkeeping of the simplified loop *)





















Lemma creditorsOf_filter bs : creditorsOf bs = filter (fun b => isCreditor b = true) bs.
Proof.
  unfold creditorsOf. induction (filter _ bs) as [|b l IH]; [done|].
  simpl. rewrite IH. by destruct b.
Qed.

Lemma elem_of_creditorsOf bs c :
  c ∈ creditorsOf bs ↔ c ∈ bs ∧ epsilon < b_amount c.
Proof.
  rewrite creditorsOf_filter, list_elem_of_filter. unfold isCreditor.
  rewrite Qltb_lt. tauto.
Qed.

Lemma elem_of_debtorsOf bs d :
  d ∈ debtorsOf bs ↔
  ∃ b, b ∈ bs ∧ b_amount b < - epsilon ∧ d = withAmount b (Qabs (b_amount b)).
Proof.
  unfold debtorsOf. rewrite list_elem_of_fmap. split.
  - intros (b & -> & [Hdeb Hb]%list_elem_of_filter). exists b.
    unfold isDebtor in Hdeb. apply Qltb_lt in Hdeb. done.
  - intros (b & Hb & Hlt & ->). exists b. split; [done|].
    apply list_elem_of_filter. split; [|done]. unfold isDebtor. by apply Qltb_lt.
Qed.

Lemma debtorsOf_big bs d : d ∈ debtorsOf bs → epsilon < b_amount d.
Proof.
  intros (b & _ & Hlt & ->)%elem_of_debtorsOf. simpl.
  rewrite Qabs_neg by (unfold epsilon in *; lra). lra.
Qed.





(** ** Settlement: the detailed policy *)





















(** What the two hypotheses are for.  With a debtor total above the
    creditor total the detailed policy pays a creditor more than its
    balance; with two debtors of one name the payments of both count for
    each. *)
Lemma detailed_overpays_unbalanced :
  detailedSettleTransactions [mkBalance alice 1; mkBalance bob (-2)]
  = [mkTransaction "Bob" "Alice" (2 * (1 / (0 + 1)))]
  ∧ ¬ receivedBy "Alice" (detailedSettleTransactions [mkBalance alice 1; mkBalance bob (-2)])
      <= 1.
Proof.
  split; [reflexivity|by vm_compute].
Qed.

Lemma settlement_shared_name :
  simplifiedSettleTransactions 2
    [mkBalance alice 2; mkBalance (mkParticipant 6 "Sam") (-1);
     mkBalance (mkParticipant 7 "Sam") (-1)]
  = Some [mkTransaction "Sam" "Alice" 1; mkTransaction "Sam" "Alice" 1]
  ∧ paidBy "Sam" [mkTransaction "Sam" "Alice" 1; mkTransaction "Sam" "Alice" 1] == 2.
Proof.
  split; [vm_compute; reflexivity|by vm_compute].
Qed.

(** ** Settlement: how long the simplified loop runs *)

(** A turn of the body either changes nothing at all, or advances a cursor;
    it pushes at most one transaction, and only when it advances. *)
Lemma loopBody_progress s s' :
  loopBody s = Some s' →
  (debtorIndex s < length (debtors s))%nat
  ∧ (creditorIndex s < length (creditors s))%nat
  ∧ length (debtors s') = length (debtors s)
  ∧ length (creditors s') = length (creditors s)
  ∧ (debtorIndex s ≤ debtorIndex s' ≤ S (debtorIndex s))%nat
  ∧ (creditorIndex s ≤ creditorIndex s' ≤ S (creditorIndex s))%nat
  ∧ ((s' = s)
     ∨ (debtorIndex s + creditorIndex s < debtorIndex s' + creditorIndex s')%nat
       ∧ (length (transactions s') ≤ S (length (transactions s)))%nat).
Proof.
  unfold loopBody. intros Hbody.
  destruct (debtors s !! debtorIndex s) as [debtor|] eqn:Hd; [|done].
  destruct (creditors s !! creditorIndex s) as [creditor|] eqn:Hc; [|done].
  injection Hbody as <-. simpl. rewrite !length_insert.
  split; [apply lookup_lt_is_Some; by exists debtor|].
  split; [apply lookup_lt_is_Some; by exists creditor|].
  split; [done|]. split; [done|].
  split; [case_cursor; lia|].
  split; [case_cursor; lia|].
  destruct (Qltb epsilon (Qmin (b_amount debtor) (b_amount creditor))) eqn:Hsettle.
  - right. rewrite length_app. simpl. split; [|lia].
    destruct (Q.min_spec (b_amount debtor) (b_amount creditor)) as [[_ Hmin]|[_ Hmin]].
    + assert (Hzero : Qltb (b_amount debtor - Qmin (b_amount debtor) (b_amount creditor))
                        epsilon = true).
      { apply Qltb_lt. unfold epsilon. lra. }
      rewrite Hzero. case_cursor; lia.
    + assert (Hzero : Qltb (b_amount creditor - Qmin (b_amount debtor) (b_amount creditor))
                        epsilon = true).
      { apply Qltb_lt. unfold epsilon. lra. }
      rewrite Hzero. case_cursor; lia.
  - rewrite !list_insert_id by done.
    destruct (Qltb (b_amount debtor) epsilon) eqn:Ed.
    { right. split; [destruct (Qltb (b_amount creditor) epsilon); lia|lia]. }
    destruct (Qltb (b_amount creditor) epsilon) eqn:Ec.
    { right. split; lia. }
    left. by destruct s.
Qed.

Lemma whileLoop_more_fuel fuel fuel' s ts :
  whileLoop fuel s = Some ts → (fuel ≤ fuel')%nat → whileLoop fuel' s = Some ts.
Proof.
  revert fuel' s. induction fuel as [|fuel IH]; intros fuel' s Hrun Hle; simpl in Hrun.
  - destruct (loopBody s) eqn:Hbody; [done|]. destruct fuel'; simpl; by rewrite Hbody.
  - destruct (loopBody s) as [s1|] eqn:Hbody.
    + destruct fuel' as [|fuel']; [lia|]. simpl. rewrite Hbody. apply IH; [done|lia].
    + destruct fuel'; simpl; by rewrite Hbody.
Qed.

(** The loop either exits within as many turns as the cursors have room,
    or it never exits. *)
Lemma whileLoop_exits_or_hangs s :
  (∃ ts, whileLoop (slack s) s = Some ts) ∨ (∀ fuel, whileLoop fuel s = None).
Proof.
  remember (slack s) as n eqn:Hn. revert s Hn.
  induction n as [n IH] using lt_wf_ind. intros s Hn.
  destruct (loopBody s) as [s1|] eqn:Hbody.
  - destruct (loopBody_progress s s1 Hbody)
      as (Hd & Hc & HlenD & HlenC & Hdi & Hci & [->|[Hadv _]]).
    + right. by apply whileLoop_stuck.
    + assert (Hless : (slack s1 < n)%nat).
      { subst n. unfold slack. rewrite HlenD, HlenC. lia. }
      destruct (IH (slack s1) Hless s1 eq_refl) as [[ts Hts]|Hhang].
      * left. exists ts. destruct n as [|n]; [lia|].
        simpl. rewrite Hbody. apply (whileLoop_more_fuel (slack s1)); [done|lia].
      * right. intros [|fuel]; simpl; rewrite Hbody; [done|apply Hhang].
  - left. exists (transactions s). destruct n; simpl; by rewrite Hbody.
Qed.



(** ** The hanging ledger on binary64 numbers *)

Section Binary64.
Import Float64.
Local Open Scope float_scope.
Set Warnings "-inexact-float".

Lemma binary64_partition :
  PrimFloat.ltb 0.01 aliceBalance = true
  ∧ PrimFloat.ltb 0.01 bobBalance = false ∧ PrimFloat.ltb bobBalance (-0.01) = false
  ∧ PrimFloat.ltb carolBalance (-0.01) = true
  ∧ PrimFloat.ltb daveBalance (-0.01) = true.
Proof.
  repeat split; vm_compute; reflexivity.
Qed.

Lemma binary64_loop_stuck s : loopBody s = Some s → ∀ fuel, whileLoop fuel s = None.
Proof.
  intros Hs fuel. induction fuel as [|fuel IH]; simpl; rewrite Hs; done.
Qed.

(** After the first turn Alice is left with exactly the double 0.01, and
    from then on the body reproduces its state. *)
Lemma binary64_pennies_hang : ∀ fuel, whileLoop fuel start = None.
Proof.
  assert (Hfirst : loopBody start
                   = Some (mkLoopState [("Carol", 0); ("Dave", 0.014)] [("Alice", 0.01)]
                             [("Carol", "Alice", 0.014)] 1 0)).
  { vm_compute. reflexivity. }
  intros [|fuel].
  - unfold whileLoop. by rewrite Hfirst.
  - change (whileLoop (S fuel) start)
      with (match loopBody start with
            | None => Some (transactions start)
            | Some s' => whileLoop fuel s'
            end).
    rewrite Hfirst. apply binary64_loop_stuck. vm_compute. reflexivity.
Qed.

End Binary64.

(** ** The ledger mutations together *)

Lemma filter_all {A} (P : A → Prop) `{∀ x, Decision (P x)} (l : list A) :
  (∀ x, x ∈ l → P x) → filter P l = l.
Proof.
  induction l as [|a l IH]; intros Hall; [done|].
  rewrite filter_cons_True by apply Hall, list_elem_of_here.
  f_equal. apply IH. intros x Hx. by apply Hall, list_elem_of_further.
Qed.

Lemma filter_all_inv {A} (P : A → Prop) `{∀ x, Decision (P x)} (l : list A) :
  filter P l = l → ∀ x, x ∈ l → P x.
Proof.
  intros Heq x Hx. rewrite <- Heq in Hx. by apply list_elem_of_filter in Hx as [? _].
Qed.

Lemma map_fixed {A} (f : A → A) (l : list A) :
  (∀ x, x ∈ l → f x = x) → map f l = l.
Proof.
  induction l as [|a l IH]; intros Hall; [done|]. simpl.
  rewrite Hall by apply list_elem_of_here.
  f_equal. apply IH. intros x Hx. by apply Hall, list_elem_of_further.
Qed.

(** Removing the expense that was just added gives back the ledger as it
    was after [removeExpense] of that id; that is the ledger before the
    addition exactly when the id [Date.now()] supplied was not in use. *)
Theorem removeExpense_addExpense (now : Z) (expense : ExpenseInput) (l : Ledger) :
  removeExpense now (addExpense now expense l) = removeExpense now l
  ∧ (removeExpense now l = l ↔ now ∉ map e_id (expenses l)).
Proof.
  split.
  - unfold removeExpense, addExpense. simpl. f_equal.
    rewrite filter_app. rewrite filter_cons_False by (simpl; tauto).
    rewrite filter_nil. apply app_nil_r.
  - unfold removeExpense. destruct l as [ps es]. simpl. split.
    + intros Heq Hin. injection Heq as Heq.
      apply list_elem_of_fmap in Hin as (e & -> & He).
      by apply (filter_all_inv _ _ Heq e He).
    + intros Hfresh. f_equal. apply filter_all. intros e He Heq.
      apply Hfresh. apply list_elem_of_fmap. by exists e.
Qed.

(** Removing a participant twice is removing it once. *)
Theorem removeParticipant_idempotent (id : Z) (l : Ledger) :
  removeParticipant id (removeParticipant id l) = removeParticipant id l.
Proof.
  unfold removeParticipant. simpl. f_equal.
  - apply filter_all. by intros p [? _]%list_elem_of_filter.
  - set (es := filter _ (map (withoutSharer id) (expenses l))).
    assert (Hfixed : map (withoutSharer id) es = es).
    { apply map_fixed. intros e [_ He]%list_elem_of_filter.
      apply list_elem_of_fmap in He as (e0 & -> & _).
      unfold withoutSharer. simpl. f_equal.
      apply filter_all. by intros s [? _]%list_elem_of_filter. }
    rewrite Hfixed. apply filter_all. by intros e [? _]%list_elem_of_filter.
Qed.

Lemma wellFormed_weaken ids ids' e :
  (∀ x, x ∈ ids → x ∈ ids') → wellFormed ids e → wellFormed ids' e.
Proof.
  intros Hsub (Hne & Hp & Hs). repeat split; [done|by apply Hsub|].
  intros s Hin. by apply Hsub, Hs.
Qed.

Lemma consistent_addParticipant now trimmed l :
  consistent l → consistent (addParticipant now trimmed l).
Proof.
  intros Hl. unfold addParticipant. destruct (String.eqb trimmed ""); [done|].
  intros e He. simpl in *. apply (wellFormed_weaken (map p_id (participants l))).
  - intros x Hx. rewrite map_app. apply elem_of_app. by left.
  - by apply Hl.
Qed.

Lemma consistent_removeParticipant id l :
  consistent l → consistent (removeParticipant id l).
Proof.
  intros Hl e He. unfold removeParticipant in *. simpl in *.
  apply list_elem_of_filter in He as [[Hpayer Hlen] He].
  apply list_elem_of_fmap in He as (e0 & -> & He0).
  destruct (Hl e0 He0) as (_ & Hp & Hs).
  assert (Hkeep : ∀ x, x ∈ map p_id (participants l) → x ≠ id →
                       x ∈ map p_id (filter (fun p => p_id p ≠ id) (participants l))).
  { intros x (p & -> & Hp')%list_elem_of_fmap Hx.
    apply list_elem_of_fmap. exists p. split; [done|].
    by apply list_elem_of_filter. }
  simpl in *. repeat split.
  - intros Hnil. simpl in Hnil. rewrite Hnil in Hlen. simpl in Hlen. lia.
  - by apply Hkeep.
  - intros s [Hs' Hin]%list_elem_of_filter. apply Hkeep; [by apply Hs|done].
Qed.

Lemma consistent_removeExpense id l :
  consistent l → consistent (removeExpense id l).
Proof.
  intros Hl e He. unfold removeExpense in *. simpl in *.
  apply list_elem_of_filter in He as [_ He]. by apply Hl.
Qed.

Lemma consistent_addExpense now expense l :
  consistent l → liveInput (map p_id (participants l)) expense →
  consistent (addExpense now expense l).
Proof.
  intros Hl (Hne & Hp & Hs) e He. unfold addExpense in *. simpl in *.
  apply elem_of_app in He as [He|He]; [by apply Hl|].
  apply list_elem_of_singleton in He as ->. by repeat split.
Qed.

(** The ledger mutations keep the ledger consistent: [addParticipant],
    [removeParticipant] and [removeExpense] always, [addExpense] when its
    argument names live participants and at least one sharer. *)
Theorem consistent_preserved (l : Ledger) :
  consistent l →
  (∀ now name, consistent (addParticipant now name l))
  ∧ (∀ id, consistent (removeParticipant id l))
  ∧ (∀ id, consistent (removeExpense id l))
  ∧ (∀ now expense, liveInput (map p_id (participants l)) expense →
       consistent (addExpense now expense l)).
Proof.
  intros Hl. split; [|split; [|split]].
  - intros now name. by apply consistent_addParticipant.
  - intros id. by apply consistent_removeParticipant.
  - intros id. by apply consistent_removeExpense.
  - intros now expense Hlive. by apply consistent_addExpense.
Qed.

Lemma consistent_preserved_witness :
  consistent (mkLedger trio [dinner])
  ∧ (∀ id, consistent (removeParticipant id (mkLedger trio [dinner]))).
Proof.
  assert (H : consistent (mkLedger trio [dinner])).
  { intros e He. by apply dinner_wellFormed. }
  split; [exact H|]. exact (proj1 (proj2 (consistent_preserved _ H))).
Defined.

(** ** The balance list and the settlement classes *)

(** A creditor of the settlement is shown as "Gets back" and a debtor as
    "Owes"; a line that is not "Is settled" belongs to neither class
    exactly when its amount is 0.01 or -0.01. *)
Theorem balanceLabel_classes (b : Balance) :
  (isCreditor b = true → balanceLabel (b_amount b) = GetsBack)
  ∧ (isDebtor b = true → balanceLabel (b_amount b) = Owes)
  ∧ (balanceLabel (b_amount b) ≠ IsSettled ∧ isCreditor b = false ∧ isDebtor b = false
     ↔ Qabs (b_amount b) == epsilon).
Proof.
  unfold balanceLabel, isCreditor, isDebtor. set (a := b_amount b).
  reflect_comparisons Qltb_lt Qltb_ge; unfold epsilon in *;
    (destruct (Qlt_le_dec a 0);
     [rewrite (Qabs_neg a) in * by lra|rewrite (Qabs_pos a) in * by lra]);
    intuition first [done|lra].
Qed.

(** ** Settlement: what a transaction can be *)

Lemma within_refl l : within l l.
Proof.
  unfold within. induction l as [|b l IH]; constructor; [|done].
  split; [done|lra].
Qed.

Lemma within_insert l l0 i b b' :
  within l l0 → l !! i = Some b →
  b_participant b' = b_participant b → b_amount b' <= b_amount b →
  within (<[i:=b']> l) l0.
Proof.
  intros Hw Hi Hp Ha.
  destruct (Forall2_lookup_l _ _ _ _ _ Hw Hi) as (b0 & Hi0 & Hp0 & Ha0).
  rewrite <- (list_insert_id l0 i b0 Hi0).
  apply Forall2_insert; [done|]. split; [congruence|lra].
Qed.

Lemma within_lookup l l0 i b :
  within l l0 → l !! i = Some b →
  ∃ b0, b0 ∈ l0 ∧ nameOf b = nameOf b0 ∧ b_amount b <= b_amount b0.
Proof.
  intros Hw Hi.
  destruct (Forall2_lookup_l _ _ _ _ _ Hw Hi) as (b0 & Hi0 & Hp0 & Ha0).
  exists b0. split; [apply list_elem_of_lookup; by exists i|].
  unfold nameOf. by rewrite Hp0.
Qed.

Lemma loopBody_between D0 C0 s s' :
  within (debtors s) D0 → within (creditors s) C0 →
  (∀ t, t ∈ transactions s → between D0 C0 t) →
  loopBody s = Some s' →
  within (debtors s') D0 ∧ within (creditors s') C0
  ∧ ∀ t, t ∈ transactions s' → between D0 C0 t.
Proof.
  intros HD HC Hts Hbody. unfold loopBody in Hbody.
  destruct (debtors s !! debtorIndex s) as [debtor|] eqn:Hd; [|done].
  destruct (creditors s !! creditorIndex s) as [creditor|] eqn:Hc; [|done].
  injection Hbody as <-. simpl.
  pose proof (Q.le_min_l (b_amount debtor) (b_amount creditor)) as Hminl.
  pose proof (Q.le_min_r (b_amount debtor) (b_amount creditor)) as Hminr.
  destruct (Qltb epsilon (Qmin (b_amount debtor) (b_amount creditor))) eqn:Hsettle.
  - apply Qltb_lt in Hsettle.
    split; [|split].
    + apply (within_insert _ _ _ debtor); [done|done|done|].
      simpl. unfold epsilon in *. lra.
    + apply (within_insert _ _ _ creditor); [done|done|done|].
      simpl. unfold epsilon in *. lra.
    + intros t [Ht|Ht]%elem_of_app; [by apply Hts|].
      apply list_elem_of_singleton in Ht as ->.
      destruct (within_lookup _ _ _ _ HD Hd) as (d0 & Hd0 & Hnd & Had).
      destruct (within_lookup _ _ _ _ HC Hc) as (c0 & Hc0 & Hnc & Hac).
      split; [done|]. exists d0, c0. simpl. repeat split; [done|done|done|done|lra|lra].
  - rewrite !list_insert_id by done. done.
Qed.

Lemma whileLoop_between D0 C0 fuel s ts :
  within (debtors s) D0 → within (creditors s) C0 →
  (∀ t, t ∈ transactions s → between D0 C0 t) →
  whileLoop fuel s = Some ts →
  ∀ t, t ∈ ts → between D0 C0 t.
Proof.
  revert s. induction fuel as [|fuel IH]; intros s HD HC Hts Hrun; simpl in Hrun;
    destruct (loopBody s) as [s1|] eqn:Hbody; try done.
  - by injection Hrun as <-.
  - destruct (loopBody_between D0 C0 s s1 HD HC Hts Hbody) as (HD1 & HC1 & Hts1).
    by apply (IH s1).
  - by injection Hrun as <-.
Qed.

Lemma between_balances bs t :
  between (debtorsOf bs) (creditorsOf bs) t →
  epsilon < t_amount t
  ∧ ∃ d c, d ∈ bs ∧ c ∈ bs ∧ b_amount d < - epsilon ∧ epsilon < b_amount c
           ∧ t_from t = nameOf d ∧ t_to t = nameOf c
           ∧ t_amount t <= Qabs (b_amount d) ∧ t_amount t <= b_amount c.
Proof.
  intros (Hbig & d0 & c & Hd0 & Hc & Hfrom & Hto & Hled & Hlec).
  split; [done|].
  apply elem_of_debtorsOf in Hd0 as (d & Hd & Hneg & ->).
  apply elem_of_creditorsOf in Hc as [Hc Hpos].
  exists d, c. by repeat split.
Qed.

(** Every transaction the simplified policy returns is above epsilon and
    goes from a debtor of the balance list to a creditor of it, for no
    more than the one owes and no more than the other is owed. *)
Theorem simplified_transactions_shape (fuel : nat) (bs : list Balance)
    (ts : list Transaction) :
  simplifiedSettleTransactions fuel bs = Some ts →
  ∀ t, t ∈ ts →
    epsilon < t_amount t
    ∧ ∃ d c, d ∈ bs ∧ c ∈ bs ∧ b_amount d < - epsilon ∧ epsilon < b_amount c
             ∧ t_from t = nameOf d ∧ t_to t = nameOf c
             ∧ t_amount t <= Qabs (b_amount d) ∧ t_amount t <= b_amount c.
Proof.
  intros Hrun t Ht. apply between_balances.
  apply (whileLoop_between _ _ fuel (initialState bs) ts); simpl;
    [apply within_refl|apply within_refl| |done|done].
  by intros ? ?%not_elem_of_nil.
Qed.

Lemma simplified_transactions_shape_witness :
  ∃ ts, simplifiedSettleTransactions 2 settledTrio = Some ts
        ∧ ∀ t, t ∈ ts →
            epsilon < t_amount t
            ∧ ∃ d c, d ∈ settledTrio ∧ c ∈ settledTrio
                     ∧ b_amount d < - epsilon ∧ epsilon < b_amount c
                     ∧ t_from t = nameOf d ∧ t_to t = nameOf c
                     ∧ t_amount t <= Qabs (b_amount d) ∧ t_amount t <= b_amount c.
Proof.
  eexists. split; [vm_compute; reflexivity|].
  apply (simplified_transactions_shape 2 settledTrio). vm_compute. reflexivity.
Defined.








(** ** Settlement: when the simplified policy returns nothing *)

Lemma whileLoop_grows fuel s ts :
  whileLoop fuel s = Some ts → (length (transactions s) ≤ length ts)%nat.
Proof.
  revert s. induction fuel as [|fuel IH]; intros s Hrun; simpl in Hrun;
    destruct (loopBody s) as [s1|] eqn:Hbody; try done.
  - by injection Hrun as <-.
  - apply IH in Hrun. unfold loopBody in Hbody.
    destruct (debtors s !! debtorIndex s) as [debtor|]; [|done].
    destruct (creditors s !! creditorIndex s) as [creditor|]; [|done].
    injection Hbody as <-. simpl in Hrun.
    destruct (Qltb epsilon _); [rewrite length_app in Hrun; simpl in Hrun; lia|done].
  - by injection Hrun as <-.
Qed.

Lemma simplified_no_pair fuel bs :
  creditorsOf bs = [] ∨ debtorsOf bs = [] →
  simplifiedSettleTransactions fuel bs = Some [].
Proof.
  unfold simplifiedSettleTransactions, initialState.
  intros [-> | ->]; destruct fuel; simpl; unfold loopBody; simpl; try done;
    by destruct (debtorsOf bs).
Qed.

Lemma simplified_first_pair fuel bs ts :
  creditorsOf bs ≠ [] → debtorsOf bs ≠ [] →
  simplifiedSettleTransactions fuel bs = Some ts → ts ≠ [].
Proof.
  unfold simplifiedSettleTransactions, initialState. intros HC HD Hrun.
  destruct (creditorsOf bs) as [|c cs] eqn:HCs; [done|].
  destruct (debtorsOf bs) as [|d ds] eqn:HDs; [done|].
  assert (Hc : epsilon < b_amount c).
  { assert (Hin : c ∈ creditorsOf bs) by (rewrite HCs; apply list_elem_of_here).
    by apply elem_of_creditorsOf in Hin as [_ ?]. }
  assert (Hd : epsilon < b_amount d).
  { apply (debtorsOf_big bs). rewrite HDs. apply list_elem_of_here. }
  assert (Hsettle : Qltb epsilon (Qmin (b_amount d) (b_amount c)) = true).
  { apply Qltb_lt. by apply Q.min_glb_lt. }
  set (s0 := mkLoopState (d :: ds) (c :: cs) [] 0 0) in *.
  assert (Hbody : ∃ s1, loopBody s0 = Some s1 ∧ length (transactions s1) = 1%nat).
  { unfold loopBody.
    change (debtors s0 !! debtorIndex s0) with (Some d).
    change (creditors s0 !! creditorIndex s0) with (Some c).
    cbv iota beta zeta. rewrite Hsettle. eexists. split; [reflexivity|done]. }
  destruct Hbody as (s1 & Hbody & Hlen).
  destruct fuel as [|fuel].
  - unfold whileLoop in Hrun. by rewrite Hbody in Hrun.
  - rewrite (whileLoop_step s0 s1 fuel Hbody) in Hrun.
    apply whileLoop_grows in Hrun. intros ->. simpl in Hrun. lia.
Qed.

(** The simplified policy returns the empty list exactly when the balance
    list has no creditor or no debtor. *)
Theorem simplified_empty_iff (fuel : nat) (bs : list Balance) :
  simplifiedSettleTransactions fuel bs = Some []
  ↔ creditorsOf bs = [] ∨ debtorsOf bs = [].
Proof.
  split; [|apply simplified_no_pair].
  intros Hrun.
  destruct (decide (creditorsOf bs = [])) as [|HC]; [by left|].
  destruct (decide (debtorsOf bs = [])) as [|HD]; [by right|].
  by destruct (simplified_first_pair fuel bs [] HC HD Hrun).
Qed.

(** ** Settlement: the simplified loop either exits early or never *)

(** On every balance list the loop of the simplified policy either exits
    within as many turns as there are creditors and debtors, with one
    result for every larger number of turns, or it never exits. *)
Theorem simplified_exits_or_hangs (bs : list Balance) :
  (∃ ts, ∀ fuel, (length (debtorsOf bs) + length (creditorsOf bs) ≤ fuel)%nat →
           simplifiedSettleTransactions fuel bs = Some ts)
  ∨ (∀ fuel, simplifiedSettleTransactions fuel bs = None).
Proof.
  unfold simplifiedSettleTransactions.
  destruct (whileLoop_exits_or_hangs (initialState bs)) as [[ts Hts]|Hhang].
  - left. exists ts. intros fuel Hfuel.
    apply (whileLoop_more_fuel (slack (initialState bs))); [done|].
    unfold slack, initialState. simpl. lia.
  - by right.
Qed.






(** ** Settlement: nobody overpays, and one side is cleared *)



(** ** Balances: the closed form *)






(** ** The conversion rates effect *)

Lemma spreadSet_from (seen l : list string) :
  NoDup seen →
  NoDup (foldl (fun seen c => if bool_decide (c ∈ seen) then seen else seen ++ [c]) seen l)
  ∧ ∀ c, c ∈ foldl (fun seen c => if bool_decide (c ∈ seen) then seen else seen ++ [c]) seen l
         ↔ c ∈ seen ∨ c ∈ l.
Proof.
  revert seen. induction l as [|a l IH]; intros seen Hnd; simpl.
  - split; [done|]. intros c. split; [by left|]. intros [?|?%not_elem_of_nil]; done.
  - destruct (bool_decide_reflect (a ∈ seen)) as [Hin|Hout].
    + destruct (IH seen Hnd) as [Hnd' Hel]. split; [done|].
      intros c. rewrite Hel, elem_of_cons. split; [tauto|].
      intros [?|[->|?]]; tauto.
    + assert (Hnd1 : NoDup (seen ++ [a])).
      { apply NoDup_app. split; [done|]. split; [|apply NoDup_singleton].
        intros x Hx ->%list_elem_of_singleton. done. }
      destruct (IH _ Hnd1) as [Hnd' Hel]. split; [done|].
      intros c. rewrite Hel, elem_of_app, list_elem_of_singleton, elem_of_cons. tauto.
Qed.

Lemma spreadSet_spec l : NoDup (spreadSet l) ∧ ∀ c, c ∈ spreadSet l ↔ c ∈ l.
Proof.
  destruct (spreadSet_from [] l) as [Hnd Hel]; [constructor|].
  split; [done|]. intros c. unfold spreadSet. rewrite Hel.
  split; [intros [?%not_elem_of_nil|?]; done|by right].
Qed.

Lemma targetCurrencies_members es baseCurrency c :
  c ∈ targetCurrenciesOf es baseCurrency
  ↔ c ≠ baseCurrency ∧ inCurrencySymbols c = true ∧ ∃ e, e ∈ es ∧ e_currency e = c.
Proof.
  unfold targetCurrenciesOf.
  destruct (spreadSet_spec (map e_currency es)) as [_ Hel].
  rewrite list_elem_of_filter, Hel, list_elem_of_fmap. split.
  - intros [[? ?] (e & -> & ?)]. repeat split; [done|done|]. by exists e.
  - intros (? & ? & e & ? & <-). split; [done|]. by exists e.
Qed.

(** The currencies a rate is asked for are, each once, the currencies of
    the expenses that differ from the summary currency and are found in
    [CURRENCY_SYMBOLS]; every supported currency in use is among them. *)
Theorem targetCurrencies_spec (es : list Expense) (baseCurrency : string) :
  NoDup (targetCurrenciesOf es baseCurrency)
  ∧ (∀ c, c ∈ targetCurrenciesOf es baseCurrency
          ↔ c ≠ baseCurrency ∧ inCurrencySymbols c = true
            ∧ ∃ e, e ∈ es ∧ e_currency e = c)
  ∧ (∀ e, e ∈ es → e_currency e ∈ SUPPORTED_CURRENCIES →
          e_currency e = baseCurrency
          ∨ e_currency e ∈ targetCurrenciesOf es baseCurrency).
Proof.
  split; [|split].
  - unfold targetCurrenciesOf. apply NoDup_filter.
    by destruct (spreadSet_spec (map e_currency es)).
  - apply targetCurrencies_members.
  - intros e He Hsup.
    destruct (decide (e_currency e = baseCurrency)) as [|Hne]; [by left|].
    right. apply targetCurrencies_members. split; [done|]. split; [|by exists e].
    unfold inCurrencySymbols. apply bool_decide_eq_true.
    apply elem_of_app. by left.
Qed.

(** After a whole run of the effect the state is one of two: a table that
    gives the summary currency the rate 1 and no error, or no table and the
    message of the rejected call, and then [balances] is the empty list.
    The table is the fetched one wherever the summary currency is not
    concerned, and is the one-entry table when there was nothing to
    fetch. *)
Theorem fetchRates_settles (es : list Expense) (baseCurrency : string)
    (outcome : Settled RateTable) (st : RatesState) :
  let st' := fetchRates es baseCurrency outcome st in
  (∃ table, conversionRates st' = Some table ∧ ratesError st' = None
            ∧ table !! baseCurrency = Some 1
            ∧ (targetCurrenciesOf es baseCurrency = [] → table = {[baseCurrency := 1]})
            ∧ (∀ rates c, targetCurrenciesOf es baseCurrency ≠ [] →
                 outcome = Fulfilled rates → c ≠ baseCurrency → table !! c = rates !! c))
  ∨ (∃ message, conversionRates st' = None ∧ ratesError st' = Some message
                ∧ outcome = RejectedWith message
                ∧ targetCurrenciesOf es baseCurrency ≠ []
                ∧ ∀ ps, balances ps es baseCurrency (conversionRates st') (ratesError st')
                        = Normal []).
Proof.
  unfold fetchRates, fetchRatesBegin. simpl.
  destruct (targetCurrenciesOf es baseCurrency) as [|c0 cs] eqn:Htargets; simpl.
  - left. exists {[baseCurrency := 1]}. repeat split; [apply lookup_singleton_eq|done].
  - destruct outcome as [rates|message]; simpl.
    + left. exists (<[baseCurrency := 1]> rates).
      repeat split; [apply lookup_insert_eq|done|].
      intros rates' c _ [= <-] Hc. by rewrite lookup_insert_ne.
    + right. exists message. repeat split; [done|].
      intros ps. apply balances_unavailable_guard. by left.
Qed.

Lemma foldExpenses_converts base table es m :
  foldExpenses base table es m
  = foldExpenses base table (filter (converts base table) es) m.
Proof.
  revert m. induction es as [|e es IH]; intros m; [done|].
  rewrite filter_cons. destruct (decide (converts base table e)) as [Hconv|Hskip].
  - simpl. destruct (converted base table e); apply IH.
  - simpl. unfold converts in Hskip. destruct (converted base table e) as [c|].
    + exfalso. by apply Hskip.
    + apply IH.
Qed.

Lemma filter_filter_implied {A} (P Q : A → Prop)
    `{∀ x, Decision (P x)} `{∀ x, Decision (Q x)} (l : list A) :
  (∀ x, x ∈ l → P x → Q x) → filter P (filter Q l) = filter P l.
Proof.
  induction l as [|a l IH]; intros Himp; [done|].
  assert (Hrest : filter P (filter Q l) = filter P l).
  { apply IH. intros x Hx. by apply Himp, list_elem_of_further. }
  rewrite (filter_cons Q). destruct (decide (Q a)) as [HQ|HQ].
  - rewrite !filter_cons. by rewrite Hrest.
  - rewrite Hrest. rewrite filter_cons_False; [done|].
    intros HP. apply HQ, Himp; [apply list_elem_of_here|done].
Qed.

Lemma balances_filter ps es base (table : RateTable) err (P : Expense → Prop)
    `{∀ e, Decision (P e)} :
  (∀ e, e ∈ es → converts base table e → P e) →
  balances ps es base (Some table) err = balances ps (filter P es) base (Some table) err.
Proof.
  intros HP. unfold balances. destruct (_ || _); [done|].
  rewrite !forExpenses_table.
  rewrite (foldExpenses_converts base table es),
          (foldExpenses_converts base table (filter P es)).
  by rewrite filter_filter_implied.
Qed.

(** When the fetched rates name requested currencies only (and always when
    nothing had to be fetched), an expense in a currency that is neither
    the summary currency nor found in [CURRENCY_SYMBOLS] never counts: the
    balances are those of the ledger without such expenses. *)
Theorem balances_ignore_unsupported ps es baseCurrency (rates : RateTable) err :
  (∀ c, is_Some (rates !! c) → c ∈ targetCurrenciesOf es baseCurrency) →
  balances ps es baseCurrency (Some (<[baseCurrency := 1]> rates)) err
  = balances ps
      (filter (fun e => e_currency e = baseCurrency ∨ inCurrencySymbols (e_currency e) = true)
         es)
      baseCurrency (Some (<[baseCurrency := 1]> rates)) err.
Proof.
  intros Hdom. apply balances_filter. intros e He Hconv.
  unfold converts, converted in Hconv.
  destruct (String.eqb_spec (e_currency e) baseCurrency) as [Heq|Hne]; [by left|].
  right. rewrite lookup_insert_ne in Hconv by done.
  destruct (rates !! e_currency e) as [rate|] eqn:Hrate; [|done].
  assert (Hin : e_currency e ∈ targetCurrenciesOf es baseCurrency).
  { apply Hdom. by exists rate. }
  apply targetCurrencies_members in Hin. tauto.
Qed.

Lemma balances_ignore_unsupported_witness :
  balances trio [dinner; souvenir] "USD" (Some (<["USD" := 1]> ∅)) None
  = balances trio
      (filter (fun e => e_currency e = "USD" ∨ inCurrencySymbols (e_currency e) = true)
         [dinner; souvenir])
      "USD" (Some (<["USD" := 1]> ∅)) None.
Proof.
  apply (balances_ignore_unsupported trio [dinner; souvenir] "USD" ∅ None).
  intros c [rate Hrate]. by rewrite lookup_empty in Hrate.
Defined.

(** Once the call has returned a rate for every currency it was asked
    for, no expense in the summary currency or in a currency found in
    [CURRENCY_SYMBOLS] is skipped. *)
Theorem fetched_rates_cover (es : list Expense) (baseCurrency : string) (rates : RateTable) :
  (∀ c, c ∈ targetCurrenciesOf es baseCurrency → is_Some (rates !! c)) →
  ∀ e, e ∈ es →
    e_currency e = baseCurrency ∨ inCurrencySymbols (e_currency e) = true →
    ∃ c, converted baseCurrency (<[baseCurrency := 1]> rates) e = Num c.
Proof.
  intros Hcover e He Hsup. unfold converted.
  destruct (String.eqb_spec (e_currency e) baseCurrency) as [Heq|Hne]; [by eexists|].
  rewrite lookup_insert_ne by done.
  destruct (Hcover (e_currency e)) as [rate ->]; [|by eexists].
  apply targetCurrencies_members. split; [done|]. split; [|by exists e].
  by destruct Hsup.
Qed.

Lemma fetched_rates_cover_witness :
  let museum := mkExpense 15 "museum" 20 "EUR" 2 [1; 2]%Z in
  targetCurrenciesOf [dinner; museum] "USD" = ["EUR"]
  ∧ ∀ e, e ∈ [dinner; museum] →
      e_currency e = "USD" ∨ inCurrencySymbols (e_currency e) = true →
      ∃ c, converted "USD" (<["USD" := 1]> {["EUR" := 108 # 100]}) e = Num c.
Proof.
  split; [reflexivity|].
  apply (fetched_rates_cover [dinner; mkExpense 15 "museum" 20 "EUR" 2 [1; 2]%Z] "USD"
           {["EUR" := 108 # 100]}).
  intros c Hc.
  assert (c = "EUR") as ->.
  { revert Hc. vm_compute. intros Hc.
    apply list_elem_of_singleton in Hc. exact Hc. }
  by exists (108 # 100).
Defined.

(** ** The toggles *)

Lemma toggle_listed {A} `{EqDecision A} (x : A) (l : list A) :
  x ∈ l → toggle x l = filter (fun y => y ≠ x) l.
Proof.
  intros Hin. unfold toggle. by rewrite bool_decide_eq_true_2.
Qed.

Lemma toggle_unlisted {A} `{EqDecision A} (x : A) (l : list A) :
  x ∉ l → toggle x l = l ++ [x].
Proof.
  intros Hout. unfold toggle. by rewrite bool_decide_eq_false_2.
Qed.

(** Toggling flips whether the element is listed and changes nothing
    else; it keeps a list free of repetitions; toggling twice gives back a
    list the element was not in, and a rearrangement of a repetition-free
    list it was in. *)
Theorem toggle_spec {A} `{EqDecision A} (x : A) (l : list A) :
  (x ∈ toggle x l ↔ x ∉ l)
  ∧ (∀ y, y ≠ x → (y ∈ toggle x l ↔ y ∈ l))
  ∧ (NoDup l → NoDup (toggle x l))
  ∧ (x ∉ l → toggle x (toggle x l) = l)
  ∧ (NoDup l → toggle x (toggle x l) ≡ₚ l).
Proof.
  assert (Hback : x ∉ l → toggle x (l ++ [x]) = l).
  { intros Hx. rewrite toggle_listed.
    - rewrite filter_app, filter_cons_False by tauto.
      rewrite filter_nil, app_nil_r. apply filter_all. by intros y Hy ->.
    - apply elem_of_app. right. apply list_elem_of_here. }
  destruct (decide (x ∈ l)) as [Hin|Hout].
  - rewrite (toggle_listed x l Hin). split; [|split; [|split; [|split]]].
    + rewrite list_elem_of_filter. tauto.
    + intros y Hy. rewrite list_elem_of_filter. tauto.
    + apply NoDup_filter.
    + done.
    + intros Hnd. rewrite toggle_unlisted.
      2:{ rewrite list_elem_of_filter. tauto. }
      apply list_elem_of_split in Hin as (l1 & l2 & ->).
      apply NoDup_app in Hnd as (Hnd1 & Hsep & Hnd2).
      apply NoDup_cons in Hnd2 as [Hx2 Hnd2].
      assert (Hx1 : x ∉ l1).
      { intros Hx1. apply (Hsep x Hx1), list_elem_of_here. }
      rewrite filter_app, filter_cons_False by tauto.
      rewrite !filter_all by (by intros y Hy ->).
      rewrite <- app_assoc. apply Permutation_app_head.
      symmetry. apply Permutation_cons_append.
  - rewrite (toggle_unlisted x l Hout). split; [|split; [|split; [|split]]].
    + rewrite elem_of_app, list_elem_of_singleton. tauto.
    + intros y Hy. rewrite elem_of_app, list_elem_of_singleton. tauto.
    + intros Hnd. apply NoDup_app. split; [done|]. split; [|apply NoDup_singleton].
      by intros y Hy ->%list_elem_of_singleton.
    + intros _. by apply Hback.
    + intros _. by rewrite (Hback Hout).
Qed.

(** ** The amount field *)

Lemma append_empty s1 s2 : s1 +:+ s2 = "" → s1 = "" ∧ s2 = "".
Proof.
  destruct s1; simpl; [done|discriminate].
Qed.

Lemma Matches_nullable r : nullable r = true ↔ Matches r "".
Proof.
  split.
  - induction r as [| |f|r1 IH1 r2 IH2|r1 IH1 r2 IH2|r IH]; simpl; intros Hn; try done.
    + constructor.
    + apply andb_prop in Hn as [H1 H2]. apply (MSeq r1 r2 "" ""); auto.
    + apply orb_prop in Hn as [H1|H2]; [apply MAltL|apply MAltR]; auto.
    + constructor.
  - intros HM. remember "" as s eqn:Hs.
    induction HM as [|f c Hc|r1 r2 s1 s2 _ IH1 _ IH2|r1 r2 s _ IH|r1 r2 s _ IH
                    |r|r s1 s2 _ _ _ _]; simpl; try done.
    + apply append_empty in Hs as [-> ->].
      by rewrite IH1, IH2.
    + by rewrite IH.
    + rewrite IH by done. apply orb_true_r.
Qed.

Lemma Matches_derive c r s : Matches (derive c r) s ↔ Matches r (String c s).
Proof.
  split.
  - revert s. induction r as [| |f|r1 IH1 r2 IH2|r1 IH1 r2 IH2|r IH]; simpl; intros s HM.
    + inversion HM.
    + inversion HM.
    + destruct (f c) eqn:Hc; inversion HM; subst. by constructor.
    + destruct (nullable r1) eqn:Hn.
      * inversion HM as [| | | ? ? ? HL | ? ? ? HR | |]; subst.
        -- inversion HL as [| |? ? s1 s2 H1 H2| | | |]; subst.
           apply (MSeq r1 r2 (String c s1) s2); auto.
        -- apply (MSeq r1 r2 "" (String c s)); [by apply Matches_nullable|auto].
      * inversion HM as [| |? ? s1 s2 H1 H2| | | |]; subst.
        apply (MSeq r1 r2 (String c s1) s2); auto.
    + inversion HM; subst; [apply MAltL|apply MAltR]; auto.
    + inversion HM as [| |? ? s1 s2 H1 H2| | | |]; subst.
      apply (MStarMore r (String c s1) s2); auto.
  - intros HM. remember (String c s) as s0 eqn:Hs0. revert s Hs0.
    induction HM as [|f c0 Hc|r1 r2 s1 s2 HM1 IH1 HM2 IH2|r1 r2 s1 _ IH|r1 r2 s1 _ IH
                    |r|r s1 s2 HM1 IH1 HM2 IH2]; intros s Hs0; simpl; try done.
    + injection Hs0 as -> <-. rewrite Hc. constructor.
    + destruct s1 as [|c1 s1]; simpl in Hs0.
      * apply Matches_nullable in HM1. rewrite HM1. apply MAltR. by apply IH2.
      * injection Hs0 as -> <-.
        destruct (nullable r1); [apply MAltL|]; apply MSeq; auto.
    + apply MAltL. by apply IH.
    + apply MAltR. by apply IH.
    + destruct s1 as [|c1 s1]; simpl in Hs0.
      * by apply IH2.
      * injection Hs0 as -> <-. apply MSeq; auto.
Qed.

Lemma test_Matches r s : test r s = true ↔ Matches r s.
Proof.
  revert r. induction s as [|c s IH]; intros r; simpl.
  - apply Matches_nullable.
  - rewrite IH. apply Matches_derive.
Qed.

Lemma Matches_digits s : Matches (Star (OneOf digit)) s ↔ digits s.
Proof.
  split.
  - intros HM. remember (Star (OneOf digit)) as r eqn:Hr.
    induction HM as [| | | | |r0|r0 s1 s2 HM1 _ HM2 IH2]; try done.
    injection Hr as ->. inversion HM1; subst. simpl. split; [done|by apply IH2].
  - induction s as [|c s IH]; simpl.
    + intros _. constructor.
    + intros [Hc Hs]. apply (MStarMore _ (String c "") s); [by constructor|by apply IH].
Qed.

Lemma Matches_optional_dot s : Matches (Alt (OneOf dot) Eps) s ↔ s = "." ∨ s = "".
Proof.
  split.
  - intros HM. inversion HM as [| | | ? ? ? HL | ? ? ? HR | |]; subst.
    + inversion HL as [|? c Hc| | | | |]; subst. left.
      unfold dot in Hc. apply Ascii.eqb_eq in Hc. by subst.
    + inversion HR. by right.
  - intros [-> | ->]; [apply MAltL|apply MAltR]; by constructor.
Qed.

Lemma test_amountPattern s : test amountPattern s = true ↔ decimalText s.
Proof.
  rewrite test_Matches. unfold amountPattern, decimalText. split.
  - intros HM. inversion HM as [| |? ? whole rest Hwhole Hrest| | | |]; subst.
    inversion Hrest as [| |? ? point fraction Hpoint Hfraction| | | |]; subst.
    apply Matches_digits in Hwhole, Hfraction.
    apply Matches_optional_dot in Hpoint as [-> | ->];
      exists whole, fraction; auto.
  - intros (whole & fraction & Hwhole & Hfraction & [-> | ->]);
      apply Matches_digits in Hwhole, Hfraction.
    + apply MSeq; [done|]. apply (MSeq _ _ "" fraction); [|done].
      by apply Matches_optional_dot; right.
    + apply MSeq; [done|]. apply (MSeq _ _ "." fraction); [|done].
      by apply Matches_optional_dot; left.
Qed.

(** The amount field takes a new value exactly when it consists of
    decimal digits with at most one full stop among them, and otherwise
    keeps the value it has; the separate test for the empty string never
    decides. *)
Theorem handleAmountChange_spec (value amount : string) :
  (decimalText value → handleAmountChange value amount = value)
  ∧ (¬ decimalText value → handleAmountChange value amount = amount)
  ∧ (value = "" → test amountPattern value = true).
Proof.
  unfold handleAmountChange. split; [|split].
  - intros Hd. apply test_amountPattern in Hd. rewrite Hd. by rewrite orb_true_r.
  - intros Hd. destruct (test amountPattern value) eqn:Ht.
    + exfalso. by apply Hd, test_amountPattern.
    + destruct (String.eqb_spec value "") as [->|_]; [|done].
      by vm_compute in Ht.
  - by intros ->.
Qed.

(** ** The modal *)

Lemma elem_of_toggle {A} `{EqDecision A} (x y : A) (l : list A) :
  y ∈ toggle x l → y = x ∨ y ∈ l.
Proof.
  unfold toggle. destruct (bool_decide (x ∈ l)).
  - intros [_ ?]%list_elem_of_filter. by right.
  - intros [?| ->%list_elem_of_singleton]%elem_of_app; [by right|by left].
Qed.

Lemma NoDup_toggle {A} `{EqDecision A} (x : A) (l : list A) :
  NoDup l → NoDup (toggle x l).
Proof.
  intros Hnd. unfold toggle. destruct (bool_decide_reflect (x ∈ l)) as [Hin|Hout].
  - by apply NoDup_filter.
  - apply NoDup_app. split; [done|]. split; [|apply NoDup_singleton].
    by intros y Hy ->%list_elem_of_singleton.
Qed.

Lemma decimalText_empty : decimalText "".
Proof.
  exists "", "". by repeat split; [..|left].
Qed.

Lemma modalInvariant_open ps : modalInvariant ps (openModal ps).
Proof.
  constructor; simpl.
  - apply decimalText_empty.
  - apply list_elem_of_here.
  - intros id Hid. destruct ps as [|p ps]; simpl in Hid; [done|].
    injection Hid as <-. apply list_elem_of_here.
  - done.
  - done.
Qed.

Lemma modalInvariant_step ps m ev :
  modalInvariant ps m → offered ps ev → modalInvariant ps (modalStep m ev).
Proof.
  intros [Hamount Hcurrency Hpaid Hshared Hdistinct] Hev.
  destruct ev as [value|value|value|p|p]; constructor; simpl in *; try done.
  - unfold handleAmountChange.
    destruct (String.eqb_spec value "") as [->|_]; simpl; [apply decimalText_empty|].
    destruct (test amountPattern value) eqn:Htest; [|done].
    by apply test_amountPattern.
  - intros id [= <-]. apply list_elem_of_fmap. by exists p.
  - intros id [-> | Hid]%elem_of_toggle; [|by apply Hshared].
    apply list_elem_of_fmap. by exists p.
  - intros Hnd. by apply NoDup_toggle, Hdistinct.
Qed.

Lemma modalInvariant_run ps evs m :
  modalInvariant ps m → Forall (offered ps) evs →
  modalInvariant ps (foldl modalStep m evs).
Proof.
  revert m. induction evs as [|ev evs IH]; intros m Hm Hevs; simpl; [done|].
  apply Forall_cons in Hevs as [Hev Hevs].
  apply IH; [|done]. by apply modalInvariant_step.
Qed.

Lemma handleSubmit_accepts f expense :
  handleSubmit f = Some expense →
  0 < i_amount expense ∧ i_description expense ≠ "" ∧ i_sharedByIds expense ≠ [].
Proof.
  intros Hsome.
  assert (Hok : ¬ rejected f).
  { intros Hrej. apply handleSubmit_None in Hrej. congruence. }
  destruct (handleSubmit_Some f expense Hsome) as (Ha & Hp & Hd & Hc & Hs).
  unfold rejected in Hok. rewrite Ha in Hok. rewrite Hd, Hs.
  split; [|split].
  - apply Qnot_le_lt. tauto.
  - tauto.
  - tauto.
Qed.

(** Whatever the user does in a modal opened on [ps], an expense the form
    hands to [addExpense] has a positive amount read off a text of decimal
    digits with at most one full stop, a description, a supported
    currency, a payer and at least one sharer, all of them participants of
    [ps], and no sharer twice when the participant ids are distinct. *)
Theorem modalSession_valid (parseFloat : string → number) (ps : list Participant)
    (evs : list ModalEvent) (expense : ExpenseInput) :
  Forall (offered ps) evs →
  handleSubmit (modalSession parseFloat ps evs) = Some expense →
  0 < i_amount expense
  ∧ i_description expense ≠ ""
  ∧ i_currency expense ∈ SUPPORTED_CURRENCIES
  ∧ liveInput (map p_id ps) expense
  ∧ (NoDup (map p_id ps) → NoDup (i_sharedByIds expense))
  ∧ ∃ text, decimalText text ∧ parseFloat text = Num (i_amount expense).
Proof.
  intros Hevs Hsome. unfold modalSession in Hsome.
  pose proof (modalInvariant_run ps evs (openModal ps) (modalInvariant_open ps) Hevs)
    as [Hamount Hcurrency Hpaid Hshared Hdistinct].
  destruct (handleSubmit_accepts _ _ Hsome) as (Hpos & Hdesc & Hne).
  destruct (handleSubmit_Some _ _ Hsome) as (Ha & Hp & Hd & Hc & Hs).
  simpl in Ha, Hp, Hd, Hc, Hs.
  split; [done|]. split; [done|]. split; [by rewrite Hc|].
  split; [|split].
  - split; [done|]. split; [by apply Hpaid|]. intros s. rewrite Hs. apply Hshared.
  - rewrite Hs. apply Hdistinct.
  - eexists. split; [exact Hamount|exact Ha].
Qed.

Lemma modalSession_valid_witness :
  let expense := mkExpenseInput "taxi" 30 "USD" 1 [1; 3]%Z in
  0 < i_amount expense
  ∧ i_description expense ≠ ""
  ∧ i_currency expense ∈ SUPPORTED_CURRENCIES
  ∧ liveInput (map p_id trio) expense
  ∧ (NoDup (map p_id trio) → NoDup (i_sharedByIds expense))
  ∧ ∃ text, decimalText text ∧ (fun _ : string => Num 30) text = Num (i_amount expense).
Proof.
  apply (modalSession_valid (fun _ => Num 30) trio
           [SetDescription "taxi"; ChangeAmount "30"; ToggleSharedBy bob]).
  - repeat constructor.
  - vm_compute. reflexivity.
Defined.

(** ** The ledgers the component can get to *)





(** ** The settle-up panel *)


(** In the simplified view the panel says that everyone is settled up
    exactly when there are at least two participants and one expense, no
    rates error is set, and the balances have no creditor or no debtor; so
    it does whenever the rate table is missing and no error is set. *)
Theorem settlePanel_everyone_settled ps es base rates err bs fuel ts :
  balances ps es base rates err = Normal bs →
  simplifiedSettleTransactions fuel bs = Some ts →
  (settlePanel ps es err ts = EveryoneSettled
   ↔ (1 < length ps)%nat ∧ es ≠ [] ∧ truthy err = false
     ∧ (creditorsOf bs = [] ∨ debtorsOf bs = []))
  ∧ (rates = None → (1 < length ps)%nat → es ≠ [] → truthy err = false →
     settlePanel ps es err ts = EveryoneSettled).
Proof.
  intros Hbs Hrun.
  assert (Hiff : settlePanel ps es err ts = EveryoneSettled
                 ↔ (1 < length ps)%nat ∧ es ≠ [] ∧ truthy err = false
                   ∧ (creditorsOf bs = [] ∨ debtorsOf bs = [])).
  { unfold settlePanel. destruct ts as [|t ts]; simpl.
    - assert (Hpair : creditorsOf bs = [] ∨ debtorsOf bs = []).
      { destruct (decide (creditorsOf bs = [])) as [|HC]; [by left|].
        destruct (decide (debtorsOf bs = [])) as [|HD]; [by right|].
        by destruct (simplified_first_pair fuel bs [] HC HD Hrun). }
      destruct (Nat.ltb_spec 1 (length ps)) as [Hps|Hps]; simpl.
      2:{ split; [done|]. intros (? & _). lia. }
      destruct es as [|e es]; simpl.
      { split; [done|]. by intros (_ & ? & _). }
      destruct (truthy err); simpl.
      + split; [done|]. by intros (_ & _ & ? & _).
      + done.
    - split; [done|]. intros (_ & _ & _ & Hpair).
      rewrite (simplified_no_pair fuel bs Hpair) in Hrun. done. }
  split; [exact Hiff|].
  intros -> Hps Hes Herr. apply Hiff.
  rewrite balances_unavailable_guard in Hbs by auto. injection Hbs as <-.
  repeat split; [done|done|done|by left].
Qed.

Lemma settlePanel_everyone_settled_witness :
  (settlePanel trio [dinner] None [] = EveryoneSettled
   ↔ (1 < length trio)%nat ∧ [dinner] ≠ [] ∧ truthy None = false
     ∧ (creditorsOf [] = [] ∨ debtorsOf [] = []))
  ∧ (@None RateTable = None → (1 < length trio)%nat → [dinner] ≠ [] → truthy None = false →
     settlePanel trio [dinner] None [] = EveryoneSettled).
Proof.
  apply (settlePanel_everyone_settled trio [dinner] "USD" None None [] 0%nat []);
    reflexivity.
Defined.

(** ** The Gemini service *)

(** [getConversionRates] is fulfilled exactly when the response text
    parses to an object with a truthy [rates] property, and then with that
    property as it is, whatever it holds.  Otherwise it is rejected with one
    of two messages, neither of them empty: the one about the response
    format exactly when the failure is a [SyntaxError], the generic one in
    every other case, the failed structure check included, whose own
    message never leaves the function. *)
Theorem getConversionRates_outcome (trim : string → string)
    (JSONparse : string → option json) (r : ApiResult) :
  (∀ rates, getConversionRates trim JSONparse r = Fulfilled rates
            ↔ ∃ text parsedResponse,
                r = ApiResponds (Some text)
                ∧ JSONparse (trim text) = Some parsedResponse
                ∧ property "rates" parsedResponse = Some rates
                ∧ truthyValue rates = true)
  ∧ (∀ message, getConversionRates trim JSONparse r = RejectedWith message →
       truthy (Some message) = true
       ∧ message ≠ "AI returned an invalid rate structure."
       ∧ (message
          = "The AI returned an invalid response format for rates. Please try again."
          ∧ (r = ApiThrows SyntaxError
             ∨ ∃ text, r = ApiResponds (Some text) ∧ JSONparse (trim text) = None)
          ∨ message = "Could not fetch conversion rates from the AI service."
            ∧ r ≠ ApiThrows SyntaxError
            ∧ ∀ text, r = ApiResponds (Some text) → JSONparse (trim text) ≠ None)).
Proof.
  unfold getConversionRates, getConversionRates_try, parseResponse. split.
  - intros rates. split.
    + destruct r as [e|[text|]]; [by destruct e|..|done].
      destruct (JSONparse (trim text)) as [parsedResponse|] eqn:Hparse; [|done].
      destruct (truthyValue parsedResponse); [|done].
      destruct (property "rates" parsedResponse) as [rates'|] eqn:Hrates; [|done].
      destruct (truthyValue rates') eqn:Htruthy; [|done].
      intros [= <-]. by exists text, parsedResponse.
    + intros (text & parsedResponse & -> & -> & Hrates & Htruthy).
      assert (Hobject : truthyValue parsedResponse = true).
      { by destruct parsedResponse. }
      by rewrite Hobject, Hrates, Htruthy.
  - intros message.
    destruct r as [e|[text|]].
    + destruct e; intros [= <-]; (split; [done|]); (split; [done|]);
        [left|right|right]; (split; [done|]); first [by left|by split].
    + destruct (JSONparse (trim text)) as [parsedResponse|] eqn:Hparse.
      * destruct (if truthyValue parsedResponse then property "rates" parsedResponse
                  else None) as [rates|];
          [destruct (truthyValue rates); [done|]|];
          intros [= <-]; (split; [done|]); (split; [done|]); right;
          (split; [done|]); (split; [done|]); intros ? [= <-]; congruence.
      * intros [= <-]. split; [done|]. split; [done|]. left. split; [done|].
        right. by exists text.
    + intros [= <-]. split; [done|]. split; [done|]. right. by repeat split.
Qed.



(** ** The settled marks *)

Section SettledKeyProperties.
Import Strings.Ascii.

Lemma hasDash_app a b : hasDash (a +:+ b) = hasDash a || hasDash b.
Proof.
  induction a as [|c a IH]; [reflexivity|].
  change (hasDash (String c (a +:+ b)) = hasDash (String c a) || hasDash b).
  simpl. rewrite IH. by rewrite orb_assoc.
Qed.

Lemma afterLastDash_app a u :
  hasDash u = false → afterLastDash (a +:+ "-" +:+ u) = u.
Proof.
  intros Hu. induction a as [|c a IH].
  - change (afterLastDash (String "-"%char u) = u). simpl. by rewrite Hu.
  - change (afterLastDash (String c (a +:+ "-" +:+ u)) = u). simpl.
    rewrite hasDash_app.
    change (hasDash ("-" +:+ u)) with (true || hasDash u).
    rewrite orb_true_r. exact IH.
Qed.

End SettledKeyProperties.

Lemma append_assoc (a b c : string) : (a +:+ b) +:+ c = a +:+ b +:+ c.
Proof.
  induction a as [|x a IH]; [reflexivity|].
  change (String x ((a +:+ b) +:+ c) = String x (a +:+ b +:+ c)). by rewrite IH.
Qed.

Lemma hasDash_pretty_N_go x s : hasDash (pretty.pretty_N_go x s) = hasDash s.
Proof.
  revert s. induction (N.lt_wf_0 x) as [x _ IH]. intros s.
  destruct (decide (x = 0)%N) as [->|Hx].
  - by rewrite pretty.pretty_N_go_0.
  - rewrite pretty.pretty_N_go_step by lia.
    rewrite IH by (apply N.div_lt; lia). simpl.
    assert (Hdigit : ∀ y, Ascii.eqb (pretty.pretty_N_char y)
                            (Ascii.Ascii true false true true false true false false)
                          = false).
    { intros y. unfold pretty.pretty_N_char.
      repeat (match goal with
              | |- context [match ?p with _ => _ end] => destruct p
              end); reflexivity. }
    by rewrite Hdigit.
Qed.

Lemma hasDash_pretty (n : nat) : hasDash (pretty.pretty n) = false.
Proof.
  unfold pretty.pretty, pretty.pretty_nat, pretty.pretty, pretty.pretty_N.
  destruct (decide (N.of_nat n = 0)%N); [done|].
  by rewrite hasDash_pretty_N_go.
Qed.

Lemma afterLastDash_key toFixed2 t index :
  afterLastDash (transactionKey toFixed2 t index) = pretty.pretty index.
Proof.
  assert (Hkey : transactionKey toFixed2 t index
                 = (t_from t +:+ "-" +:+ t_to t +:+ "-" +:+ toFixed2 (t_amount t))
                   +:+ "-" +:+ pretty.pretty index).
  { unfold transactionKey. by rewrite !append_assoc. }
  rewrite Hkey. apply afterLastDash_app, hasDash_pretty.
Qed.

Lemma transactionKey_position toFixed2 t t' i j :
  transactionKey toFixed2 t i = transactionKey toFixed2 t' j → i = j.
Proof.
  intros Hkey. apply (f_equal afterLastDash) in Hkey.
  rewrite !afterLastDash_key in Hkey. by apply (inj pretty.pretty) in Hkey.
Qed.

(** The keys of two lines at different positions differ, whatever the
    names and amounts, so that clicking the mark of a line flips the mark
    of that line and of no line at another position.  A key does not tell
    which transaction stands at its position: two transactions with
    different senders can have the same key there. *)
Theorem settled_mark_is_positional (toFixed2 : Q → string) :
  (∀ t t' i j, transactionKey toFixed2 t i = transactionKey toFixed2 t' j → i = j)
  ∧ (∀ settled t i,
       isSettled toFixed2 (handleSettleToggle (transactionKey toFixed2 t i) settled) t i
       = negb (isSettled toFixed2 settled t i))
  ∧ (∀ settled t i t' j,
       i ≠ j →
       isSettled toFixed2 (handleSettleToggle (transactionKey toFixed2 t i) settled) t' j
       = isSettled toFixed2 settled t' j)
  ∧ ∃ t t', t_from t ≠ t_from t'
            ∧ ∀ i, transactionKey toFixed2 t i = transactionKey toFixed2 t' i.
Proof.
  split; [|split; [|split]].
  - apply transactionKey_position.
  - intros settled t i. unfold isSettled, handleSettleToggle.
    set (key := transactionKey toFixed2 t i).
    destruct (decide (key ∈ settled)) as [Hin|Hout].
    + rewrite (toggle_listed key settled Hin).
      rewrite (bool_decide_eq_true_2 (key ∈ settled)) by done.
      apply bool_decide_eq_false_2. rewrite list_elem_of_filter. tauto.
    + rewrite (toggle_unlisted key settled Hout).
      rewrite (bool_decide_eq_false_2 (key ∈ settled)) by done.
      apply bool_decide_eq_true_2. apply elem_of_app. right. apply list_elem_of_here.
  - intros settled t i t' j Hij. unfold isSettled, handleSettleToggle.
    set (key := transactionKey toFixed2 t i). set (key' := transactionKey toFixed2 t' j).
    assert (Hne : key' ≠ key).
    { intros Heq. apply Hij. symmetry. by apply (transactionKey_position toFixed2 t' t). }
    apply bool_decide_ext. split.
    + intros [Heq|Hin]%elem_of_toggle; [by destruct Hne|done].
    + intros Hin. destruct (decide (key ∈ settled)) as [Hk|Hk].
      * rewrite (toggle_listed key settled Hk). by apply list_elem_of_filter.
      * rewrite (toggle_unlisted key settled Hk). apply elem_of_app. by left.
  - exists (mkTransaction "a-b" "c" 1), (mkTransaction "a" "b-c" 1).
    split; [done|]. intros i. reflexivity.
Qed.

(** ** The checklists *)

(** Ticking an item twice gives back the list as it was, and ticking
    changes nothing but the [completed] flag of the items with that id,
    which it flips.
    Deleting the item that was just added gives back the list when the
    clock value is not the id of an item already there. *)
Theorem checklist_round_trips (items : list TodoItem) :
  (∀ id, handleToggleItem id (handleToggleItem id items) = items)
  ∧ (∀ id, map td_text (handleToggleItem id items) = map td_text items
           ∧ map td_id (handleToggleItem id items) = map td_id items
           ∧ map listType (handleToggleItem id items) = map listType items
           ∧ map completed (handleToggleItem id items)
             = map (fun item => if Qeq_bool (td_id item) id then negb (completed item)
                                else completed item) items)
  ∧ (∀ now text type,
       (∀ item, item ∈ items → ¬ td_id item == inject_Z now) →
       handleDeleteItem (inject_Z now) (handleAddItem now text type items) = items).
Proof.
  split; [|split].
  - intros id. unfold handleToggleItem. rewrite map_map. apply map_fixed.
    intros item _. destruct (Qeq_bool (td_id item) id) eqn:Hid; simpl.
    + rewrite Hid. destruct item as [i t c ty]. unfold toggled. simpl.
      by rewrite negb_involutive.
    + by rewrite Hid.
  - intros id. unfold handleToggleItem. rewrite !map_map.
    repeat split; apply map_ext; intros item;
      by destruct (Qeq_bool (td_id item) id).
  - intros now text type Hfresh. unfold handleDeleteItem, handleAddItem.
    rewrite filter_app, filter_cons_False.
    + rewrite filter_nil, app_nil_r. apply filter_all. intros item Hitem.
      destruct (Qeq_bool (td_id item) (inject_Z now)) eqn:Hid; [|done].
      apply Qeq_bool_iff in Hid. by destruct (Hfresh item Hitem).
    + simpl. intros Hne.
      assert (Heq : Qeq_bool (inject_Z now) (inject_Z now) = true).
      { apply Qeq_bool_iff. reflexivity. }
      congruence.
Qed.


